(** * summavi: sliding-window engine, settings loader and FIT data extraction

    A shallow embedding of [summavi/window.py], [summavi/settings.py] and
    [summavi/data_extraction.py], with the properties of the written
    specification stated and settled against it.

    Numbers: time points, window lengths and time steps are Python floats in
    the source.  The window engine is embedded twice.  [Window] takes them as
    exact rationals ([Q]): it serves for what rests on the comparisons of one
    window with the time points, and on the order of the windows.  [Float64]
    is the same code over IEEE 754 binary64 numbers (Rocq's primitive
    floats, the arithmetic of Python's [float] and of numpy's [float64]): it
    serves for what depends on how the accumulated window bounds are
    rounded. *)

From stdpp Require Import gmap strings.
From Stdlib Require Import QArith Qround Lqa Lia List ZArith Bool Sorted Floats.
Import ListNotations.

(** ** Python-level helpers shared by the three modules *)

(** [x < y] on rationals as a boolean, next to the library's [Qle_bool]. *)
Definition Qltb (x y : Q) : bool := negb (Qle_bool y x).

(** A call that returns a value or raises an exception. *)
Inductive result (E A : Type) : Type :=
| Returns (value : A)
| Raises (e : E).
Arguments Returns {E A} value.
Arguments Raises {E A} e.

(** Sequencing: an exception raised by the first call ends the second. *)
Definition bind {E A B : Type} (call : result E A) (rest : A -> result E B)
  : result E B :=
  match call with
  | Returns value => rest value
  | Raises e => Raises e
  end.

Notation "'do' x <- call ; rest" := (bind call (fun x => rest))
  (at level 10, x name, call at level 100, rest at level 200).

(** * window.py *)
Module Window.

Local Open Scope Q_scope.

(** What a call of the user-supplied function does: it returns a Python
    value ([None] being Python's [None]) or raises. *)
Inductive outcome (R : Type) : Type :=
| Returned (value : option R)
| Raised.
Arguments Returned {R} value.
Arguments Raised {R}.

(** The two call shapes, [function(time[:e], signal[:e], **kwargs)] and
    [function(signal[:e], **kwargs)]. *)
Inductive call_args (V : Type) : Type :=
| TimeAndSignal (time_in_window : list Q) (signal_in_window : list V)
| SignalOnly (signal_in_window : list V).
Arguments TimeAndSignal {V} time_in_window signal_in_window.
Arguments SignalOnly {V} signal_in_window.

(** The tuple the generator yields. *)
Record descriptor (R : Type) : Type := Descriptor {
  window_begin_time : Q;
  window_end_time : Q;
  window_begin_index : nat;
  window_end_index : nat;
  function_output : option R
}.
Arguments Descriptor {R}.
Arguments window_begin_time {R}.
Arguments window_end_time {R}.
Arguments window_begin_index {R}.
Arguments window_end_index {R}.
Arguments function_output {R}.

(** One pass through the body of the main [while] loop: the window that was
    tested and what was yielded for it, if anything. *)
Record iteration (R : Type) : Type := Iteration {
  tested_begin : Q;
  tested_end : Q;
  yielded : option (descriptor R)
}.
Arguments Iteration {R}.
Arguments tested_begin {R}.
Arguments tested_end {R}.
Arguments yielded {R}.

(** How a run of the generator, driven to exhaustion, ends. *)
Inductive run (A : Type) : Type :=
| Finished (produced : A)
| IndexError
| OutOfFuel.
Arguments Finished {A} produced.
Arguments IndexError {A}.
Arguments OutOfFuel {A}.

(** [np.where(mask)[0]]: the positions of the true entries, ascending. *)
Fixpoint where_from (i : nat) (mask : list bool) : list nat :=
  match mask with
  | [] => []
  | m :: mask' =>
      if m then i :: where_from (S i) mask' else where_from (S i) mask'
  end.

Definition where_ (mask : list bool) : list nat := where_from 0 mask.

(** [(time >= window_begin_time) & (time < window_end_time)] *)
Definition in_window (b e t : Q) : bool := Qle_bool b t && Qltb t e.

Definition window_indices (time : list Q) (b e : Q) : list nat :=
  where_ (map (in_window b e) time).

(** The first [while] loop: fast-forward while the window ends before
    [time[0]]. *)
Fixpoint fast_forward (fuel : nat) (first_time time_step b e : Q)
  : option (Q * Q) :=
  match fuel with
  | O => None
  | S fuel' =>
      if Qltb e first_time
      then fast_forward fuel' first_time time_step (b + time_step) (e + time_step)
      else Some (b, e)
  end.

Section Engine.

Context {V R K : Type}.
Variable time : list Q.
Variable signal : list V.
Variable window_length time_step : Q.
Variable function : call_args V -> K -> outcome R.
Variable pass_time_in_window : bool.
Variable kwargs : K.

(** The arguments handed to [function] for a window ending at position
    [window_end_index]. *)
Definition window_content (end_index : nat) : call_args V :=
  if pass_time_in_window
  then TimeAndSignal (firstn end_index time) (firstn end_index signal)
  else SignalOnly (firstn end_index signal).

(** The [try]/[except] around the call. *)
Definition call_function (end_index : nat) : option R :=
  match function (window_content end_index) kwargs with
  | Returned value => value
  | Raised => None
  end.

(** The [if len(window_indices) != 0] block. *)
Definition window_yield (b e : Q) : option (descriptor R) :=
  match window_indices time b e with
  | [] => None
  | first_index :: others =>
      let end_index := last others first_index in
      Some (Descriptor b e first_index end_index (call_function end_index))
  end.

(** The main [while not stop_moving_window] loop. *)
Fixpoint window_loop (fuel : nat) (last_time b e : Q)
  : option (list (iteration R)) :=
  match fuel with
  | O => None
  | S fuel' =>
      let this := Iteration b e (window_yield b e) in
      if Qltb e last_time
      then option_map (cons this)
             (window_loop fuel' last_time (b + time_step) (e + time_step))
      else Some [this]
  end.

(** [if time0 is None: time0 = time[0]] *)
Definition origin_of (first_time : Q) (time0 : option Q) : Q :=
  match time0 with
  | None => first_time
  | Some t => t
  end.

(** The interval the main loop starts from, after origin resolution and
    fast-forwarding. *)
Definition aligned_window (fuel : nat) (time0 : option Q) : run (Q * Q) :=
  match time with
  | [] => IndexError
  | first_time :: _ =>
      let origin := origin_of first_time time0 in
      match fast_forward fuel first_time time_step origin (origin + window_length) with
      | None => OutOfFuel
      | Some w => Finished w
      end
  end.

(** All iterations of the main loop, in order. *)
Definition moving_window_trace (fuel : nat) (time0 : option Q)
  : run (list (iteration R)) :=
  match aligned_window fuel time0 with
  | Finished (b, e) =>
      match window_loop fuel (last time 0) b e with
      | None => OutOfFuel
      | Some its => Finished its
      end
  | IndexError => IndexError
  | OutOfFuel => OutOfFuel
  end.

Definition yields (its : list (iteration R)) : list (descriptor R) :=
  flat_map (fun it => match yielded it with Some d => [d] | None => [] end) its.

(** The sequence of tuples the generator produces. *)
Definition moving_window (fuel : nat) (time0 : option Q)
  : run (list (descriptor R)) :=
  match moving_window_trace fuel time0 with
  | Finished its => Finished (yields its)
  | IndexError => IndexError
  | OutOfFuel => OutOfFuel
  end.

End Engine.

(** *** Vocabulary of the specification *)

(** "Sorted ascending by timestamp". *)
Fixpoint ascending (l : list Q) : bool :=
  match l with
  | [] => true
  | x :: l' =>
      match l' with
      | [] => true
      | y :: _ => Qle_bool x y && ascending l'
      end
  end.

(** The samples at positions [i .. j], both included. *)
Definition slice {A : Type} (l : list A) (i j : nat) : list A :=
  firstn (S j - i) (skipn i l).

(** [n] time steps. *)
Definition offset (time_step : Q) (n : nat) : Q :=
  inject_Z (Z.of_nat n) * time_step.

(** The fields of a yielded tuple that do not come from [function]. *)
Definition geometry {R : Type} (d : descriptor R) : Q * Q * nat * nat :=
  (window_begin_time d, window_end_time d,
   window_begin_index d, window_end_index d).

(** How a yielded tuple relates to the one yielded before it: the window has
    moved by a positive number of steps, and neither position has gone
    back. *)
Definition successive {R : Type} (time_step : Q) (d1 d2 : descriptor R)
  : Prop :=
  (exists k, (0 < k)%nat /\
     window_begin_time d2 == window_begin_time d1 + offset time_step k) /\
  window_begin_time d1 < window_begin_time d2 /\
  (window_begin_index d1 <= window_begin_index d2)%nat /\
  (window_end_index d1 <= window_end_index d2)%nat.

(** *** Comparing two runs over the same series *)

Section TwoFunctions.

Context {V R K : Type}.
Variable time : list Q.
Variable signal : list V.
Variable function reference : call_args V -> K -> outcome R.
Variable pass_time_in_window : bool.
Variable kwargs : K.

(** Same window, same positions, and the same output wherever the two
    functions do the same on the window's content. *)
Definition same_window (d d' : descriptor R) : Prop :=
  geometry d = geometry d' /\
  (function (window_content time signal pass_time_in_window
               (window_end_index d)) kwargs =
   reference (window_content time signal pass_time_in_window
                (window_end_index d)) kwargs ->
   function_output d = function_output d').

Definition same_iteration (it it' : iteration R) : Prop :=
  tested_begin it = tested_begin it' /\ tested_end it = tested_end it' /\
  match yielded it, yielded it' with
  | Some d, Some d' => same_window d d'
  | None, None => True
  | _, _ => False
  end.

End TwoFunctions.

(** *** The inputs of the specification's scenarios *)

Definition scenario_time : list Q := [0; 1; 2; 3; 10; 11; 12].
Definition scenario_signal : list Q := [1; 2; 3; 4; 5; 6; 7].

(** Python's builtin [sum(iterable, start=0)] on arrays of numbers: a number
    for [sum(signal)], and for [sum(time, signal)], where the start value is
    an array, that array with every summand added to each entry. *)
Definition python_sum (args : call_args Q) (_ : unit) : outcome (Q + list Q) :=
  match args with
  | SignalOnly values => Returned (Some (inl (fold_left Qplus values 0)))
  | TimeAndSignal times start =>
      Returned (Some (inr (fold_left (fun acc t => map (fun a => a + t) acc)
                                     times start)))
  end.

(** A function that hands back the arguments it was called with. *)
Definition record_call {V : Type} (args : call_args V) (_ : unit)
  : outcome (call_args V) :=
  Returned (Some args).

(** [sum], except that it raises when called on exactly [n] values. *)
Definition sum_raising_on (n : nat) (args : call_args Q) (kwargs : unit)
  : outcome (Q + list Q) :=
  match args with
  | SignalOnly values =>
      if Nat.eqb (length values) n then Raised else python_sum args kwargs
  | TimeAndSignal _ _ => python_sum args kwargs
  end.

End Window.

(** * window.py over binary64 numbers

    The generator once more, as [Window] has it, with the time points, the
    window length and the time step as IEEE 754 binary64 numbers: the
    comparisons are those of the floats, and each [+=] is a rounded
    addition. *)
Module Float64.

Import Window.
Local Open Scope float_scope.

(** The two call shapes, the time points being binary64 numbers. *)
Inductive call_args (V : Type) : Type :=
| TimeAndSignal (time_in_window : list float) (signal_in_window : list V)
| SignalOnly (signal_in_window : list V).
Arguments TimeAndSignal {V} time_in_window signal_in_window.
Arguments SignalOnly {V} signal_in_window.

(** The tuple the generator yields. *)
Record descriptor (R : Type) : Type := Descriptor {
  window_begin_time : float;
  window_end_time : float;
  window_begin_index : nat;
  window_end_index : nat;
  function_output : option R
}.
Arguments Descriptor {R}.
Arguments window_begin_time {R}.
Arguments window_end_time {R}.
Arguments window_begin_index {R}.
Arguments window_end_index {R}.
Arguments function_output {R}.

(** One pass through the body of the main [while] loop. *)
Record iteration (R : Type) : Type := Iteration {
  tested_begin : float;
  tested_end : float;
  yielded : option (descriptor R)
}.
Arguments Iteration {R}.
Arguments tested_begin {R}.
Arguments tested_end {R}.
Arguments yielded {R}.

(** [(time >= window_begin_time) & (time < window_end_time)]: both
    comparisons are false on a NaN. *)
Definition in_window (b e t : float) : bool := (b <=? t) && (t <? e).

Definition window_indices (time : list float) (b e : float) : list nat :=
  where_ (map (in_window b e) time).

(** The first [while] loop; [window_begin_time += time_step] and
    [window_end_time += time_step] are binary64 additions, each rounded to
    nearest. *)
Fixpoint fast_forward (fuel : nat) (first_time time_step b e : float)
  : option (float * float) :=
  match fuel with
  | O => None
  | S fuel' =>
      if e <? first_time
      then fast_forward fuel' first_time time_step (b + time_step) (e + time_step)
      else Some (b, e)
  end.

Section Engine.

Context {V R K : Type}.
Variable time : list float.
Variable signal : list V.
Variable window_length time_step : float.
Variable function : call_args V -> K -> outcome R.
Variable pass_time_in_window : bool.
Variable kwargs : K.

(** The arguments handed to [function]. *)
Definition window_content (end_index : nat) : call_args V :=
  if pass_time_in_window
  then TimeAndSignal (firstn end_index time) (firstn end_index signal)
  else SignalOnly (firstn end_index signal).

(** The [try]/[except] around the call. *)
Definition call_function (end_index : nat) : option R :=
  match function (window_content end_index) kwargs with
  | Returned value => value
  | Raised => None
  end.

(** The [if len(window_indices) != 0] block. *)
Definition window_yield (b e : float) : option (descriptor R) :=
  match window_indices time b e with
  | [] => None
  | first_index :: others =>
      let end_index := last others first_index in
      Some (Descriptor b e first_index end_index (call_function end_index))
  end.

(** The main [while not stop_moving_window] loop. *)
Fixpoint window_loop (fuel : nat) (last_time b e : float)
  : option (list (iteration R)) :=
  match fuel with
  | O => None
  | S fuel' =>
      let this := Iteration b e (window_yield b e) in
      if e <? last_time
      then option_map (cons this)
             (window_loop fuel' last_time (b + time_step) (e + time_step))
      else Some [this]
  end.

(** [if time0 is None: time0 = time[0]] *)
Definition origin_of (first_time : float) (time0 : option float) : float :=
  match time0 with
  | None => first_time
  | Some t => t
  end.

(** The interval the main loop starts from: [[time0, time0 + window_length)]
    after fast-forwarding. *)
Definition aligned_window (fuel : nat) (time0 : option float)
  : run (float * float) :=
  match time with
  | [] => IndexError
  | first_time :: _ =>
      let origin := origin_of first_time time0 in
      match fast_forward fuel first_time time_step origin (origin + window_length) with
      | None => OutOfFuel
      | Some w => Finished w
      end
  end.

(** All iterations of the main loop, in order. *)
Definition moving_window_trace (fuel : nat) (time0 : option float)
  : run (list (iteration R)) :=
  match aligned_window fuel time0 with
  | Finished (b, e) =>
      match window_loop fuel (last time 0) b e with
      | None => OutOfFuel
      | Some its => Finished its
      end
  | IndexError => IndexError
  | OutOfFuel => OutOfFuel
  end.

Definition yields (its : list (iteration R)) : list (descriptor R) :=
  flat_map (fun it => match yielded it with Some d => [d] | None => [] end) its.

(** The sequence of tuples the generator produces. *)
Definition moving_window (fuel : nat) (time0 : option float)
  : run (list (descriptor R)) :=
  match moving_window_trace fuel time0 with
  | Finished its => Finished (yields its)
  | IndexError => IndexError
  | OutOfFuel => OutOfFuel
  end.

End Engine.

(** "Sorted ascending by timestamp". *)
Fixpoint ascending (l : list float) : bool :=
  match l with
  | [] => true
  | x :: l' =>
      match l' with
      | [] => true
      | y :: _ => (x <=? y) && ascending l'
      end
  end.

(** [x] after [n] times [x += time_step]. *)
Fixpoint advanced (time_step : float) (n : nat) (x : float) : float :=
  match n with
  | O => x
  | S n' => advanced time_step n' (x + time_step)
  end.

(** The rational number that a finite binary64 number stands for (0 for
    the infinities and NaN, which stand for none). *)
Definition value (x : float) : Q :=
  match Prim2SF x with
  | S754_finite s m e =>
      (inject_Z (if s then Z.neg m else Z.pos m) * Qpower 2 e)%Q
  | _ => 0%Q
  end.

(** Python's builtin [len] as the function: the number of values it is
    handed; with two arguments it raises [TypeError]. *)
Definition python_len {V : Type} (args : call_args V) (_ : unit) : outcome nat :=
  match args with
  | SignalOnly values => Returned (Some (length values))
  | TimeAndSignal _ _ => Raised
  end.

End Float64.

(** * settings.py *)
Module Settings.

Local Open Scope string_scope.

#[local] Set Warnings "-register-all".

(** A document as PyYAML's safe loader builds it: [None], booleans, numbers,
    strings, lists, and dictionaries (in insertion order, keyed here by
    strings). *)
Inductive yaml : Type :=
| YNull
| YBool (b : bool)
| YInt (n : Z)
| YFloat (x : Q)
| YStr (s : string)
| YSeq (items : list yaml)
| YMap (entries : list (string * yaml)).

(** What is behind a path: nothing when there is no file, so that [open]
    raises [FileNotFoundError]; otherwise a text that [yaml.load] rejects
    with a [YAMLError] or turns into a document. *)
Inductive contents : Type :=
| Malformed
| Document (document : yaml).

Inductive settings_error : Type :=
| FileNotFound        (* "Filename ... not found at location ..." *)
| MalformedDocument   (* "Error loading YAML document ..." *)
| EmptyDocument       (* "Empty YAML document ..." *)
| GroupNotDefined     (* "Group name '...' is not defined ..." *)
| EmptyGroup.         (* "Empty group in YAML document ..." *)

Inductive exception : Type :=
| SettingsError (why : settings_error)
| FileNotFoundError
| KeyError
| TypeError
| AttributeError.

(** What [Settings.load] depends on besides its arguments: the files, the
    directory of the calling module (from [get_caller_info(level=2)]), the
    directory of [settings.py], and [pathlib.Path.resolve]. *)
Record environment : Type := Environment {
  files : gmap string contents;
  caller_dir : string;
  this_file_location : string;
  resolve : string -> string
}.

(** [directory / filename] for a relative file name. *)
Definition join (directory filename : string) : string :=
  directory ++ "/" ++ filename.

(** [bool(value)]: what [not value] tests. *)
Definition truthy (value : yaml) : bool :=
  match value with
  | YNull => false
  | YBool b => b
  | YInt n => negb (n =? 0)%Z
  | YFloat x => negb (Qeq_bool x 0)
  | YStr s => negb (String.eqb s "")
  | YSeq items => match items with [] => false | _ :: _ => true end
  | YMap entries => match entries with [] => false | _ :: _ => true end
  end.

(** Dictionary lookup. *)
Fixpoint lookup_key (name : string) (entries : list (string * yaml))
  : option yaml :=
  match entries with
  | [] => None
  | (key, value) :: entries' =>
      if String.eqb key name then Some value else lookup_key name entries'
  end.

(** [name in value] *)
Definition contains (name : string) (value : yaml) : result exception bool :=
  match value with
  | YMap entries =>
      Returns (match lookup_key name entries with Some _ => true | None => false end)
  | YSeq items =>
      Returns (existsb (fun item => match item with
                                    | YStr s => String.eqb s name
                                    | _ => false
                                    end) items)
  | YStr s =>
      Returns (match String.index 0 name s with Some _ => true | None => false end)
  | YNull | YBool _ | YInt _ | YFloat _ => Raises TypeError
  end.

(** [value[name]] for a string [name] that [value] contains. *)
Definition subscript (value : yaml) (name : string) : result exception yaml :=
  match value with
  | YMap entries =>
      match lookup_key name entries with
      | Some v => Returns v
      | None => Raises KeyError
      end
  | _ => Raises TypeError
  end.

(** [AttributeDict({name: value for name, value in value.items()})] *)
Definition items (value : yaml) : result exception (list (string * yaml)) :=
  match value with
  | YMap entries => Returns entries
  | _ => Raises AttributeError
  end.

(** [Settings.read_configuration_file], with the class attribute
    [__memoized_yaml] passed in and out. *)
Definition read_configuration_file (env : environment)
    (memoized_yaml : gmap string yaml) (filename : string) (force : bool)
  : result exception yaml * gmap string yaml :=
  match (if force then None else memoized_yaml !! filename) with
  | Some document => (Returns document, memoized_yaml)
  | None =>
      match files env !! filename with
      | None => (Raises FileNotFoundError, memoized_yaml)
      | Some Malformed => (Raises (SettingsError MalformedDocument), memoized_yaml)
      | Some (Document yaml_document) =>
          (Returns yaml_document, <[filename := yaml_document]> memoized_yaml)
      end
  end.

(** The directory in which [Settings.load] looks for the file. *)
Definition yaml_location (env : environment) (filename : string)
    (location : option string) : string :=
  match location with
  | None =>
      match files env !! join (caller_dir env) filename with
      | Some _ => caller_dir env
      | None => this_file_location env
      end
  | Some given => resolve env given
  end.

(** [Settings.load] *)
Definition load (env : environment) (memoized_yaml : gmap string yaml)
    (group_name : option string) (filename : string)
    (location : option string) (force : bool)
  : result exception (list (string * yaml)) * gmap string yaml :=
  let path := join (yaml_location env filename location) filename in
  match read_configuration_file env memoized_yaml path force with
  | (Raises FileNotFoundError, memo) => (Raises (SettingsError FileNotFound), memo)
  | (Raises e, memo) => (Raises e, memo)
  | (Returns yaml_document_global, memo) =>
      if negb (truthy yaml_document_global)
      then (Raises (SettingsError EmptyDocument), memo)
      else
        match group_name with
        | None | Some "" => (items yaml_document_global, memo)
        | Some name =>
            match contains name yaml_document_global with
            | Raises e => (Raises e, memo)
            | Returns false => (Raises (SettingsError GroupNotDefined), memo)
            | Returns true =>
                match subscript yaml_document_global name with
                | Raises e => (Raises e, memo)
                | Returns group =>
                    if negb (truthy group)
                    then (Raises (SettingsError EmptyGroup), memo)
                    else (items group, memo)
                end
            end
        end
  end.

(** What [Settings.load] makes of the outcome of
    [read_configuration_file]: the part of [load] after the file is read. *)
Definition select_group (group_name : option string)
    (read : result exception yaml)
  : result exception (list (string * yaml)) :=
  match read with
  | Raises FileNotFoundError => Raises (SettingsError FileNotFound)
  | Raises e => Raises e
  | Returns yaml_document_global =>
      if negb (truthy yaml_document_global)
      then Raises (SettingsError EmptyDocument)
      else
        match group_name with
        | None | Some "" => items yaml_document_global
        | Some name =>
            do defined <- contains name yaml_document_global;
            if defined
            then do group <- subscript yaml_document_global name;
                 if negb (truthy group)
                 then Raises (SettingsError EmptyGroup)
                 else items group
            else Raises (SettingsError GroupNotDefined)
        end
  end.

(** [Settings.get_memoized_locations] *)
Definition get_memoized_locations (memoized_yaml : gmap string yaml)
  : gset string :=
  dom memoized_yaml.

(** *** [Settings.to_string] *)

Definition newline : string := String (Ascii.ascii_of_nat 10) "".

(** [value.keys()] *)
Definition keys (value : yaml) : result exception (list string) :=
  match value with
  | YMap entries => Returns (map fst entries)
  | _ => Raises AttributeError
  end.

(** [trunc = line[:length]], with [" ..."] added when [len(line) > length],
    for [length = 60]. *)
Definition shown (line : string) : string :=
  let length := 60%nat in
  let trunc := String.substring 0 length line in
  if Nat.ltb length (String.length line) then trunc ++ " ..." else trunc.

Section ToString.

(** Python's [str()] on the values of a document. *)
Variable str : yaml -> string.

(** The inner loop, over the fields of one memoized document. *)
Fixpoint field_lines (document : yaml) (fields : list string) (msg : string)
  : result exception string :=
  match fields with
  | [] => Returns msg
  | field :: fields' =>
      do value <- subscript document field;
      field_lines document fields'
        (msg ++ "   " ++ field ++ ": " ++ shown (str value) ++ newline)
  end.

(** The outer loop, over the memoized files in the order in which the
    dictionary holds them. *)
Fixpoint file_lines (memoized : list (string * yaml)) (msg : string)
  : result exception string :=
  match memoized with
  | [] => Returns msg
  | (key, document) :: memoized' =>
      do fields <- keys document;
      do msg' <- field_lines document fields
                   (msg ++ "YAML file: " ++ key ++ newline);
      file_lines memoized' msg'
  end.

Definition to_string (memoized : list (string * yaml))
  : result exception string :=
  file_lines memoized "".

End ToString.

(** A listing of the memoized documents, in whatever order the dictionary
    holds them. *)
Definition lists (memoized : list (string * yaml))
    (memoized_yaml : gmap string yaml) : Prop :=
  forall key document,
    In (key, document) memoized <-> memoized_yaml !! key = Some document.

(** *** [get_caller_info] *)

(** The loop over [frame.f_back]: [frame] is the current frame and
    [callers] the frames behind it, the nearest first. *)
Fixpoint get_caller_info {frame_info : Type} (level : nat)
    (frame : frame_info) (callers : list frame_info) : frame_info :=
  match level with
  | O => frame
  | S level' =>
      match callers with
      | [] => frame
      | back :: callers' => get_caller_info level' back callers'
      end
  end.

(** *** [AttributeDict] *)

(** The dictionary itself, in insertion order, and the label that
    [__init__] puts into the instance's [__dict__]. *)
Record AttributeDict : Type := {
  entries : list (string * yaml);
  _label : option string
}.

(** What reading an attribute gives: the label, something defined on the
    class ([dict]'s and [AttributeDict]'s methods and the like), or, through
    [__getattr__], an item of the dictionary. *)
Inductive attribute : Type :=
| Label (label : option string)
| ClassAttribute (name : string)
| Item (value : yaml).

(** [dict.__setitem__]: an existing key keeps its place. *)
Fixpoint setitem (items : list (string * yaml)) (key : string) (value : yaml)
  : list (string * yaml) :=
  match items with
  | [] => [(key, value)]
  | (k, v) :: items' =>
      if String.eqb k key then (k, value) :: items'
      else (k, v) :: setitem items' key value
  end.

(** [dict.__delitem__] *)
Fixpoint delitem (items : list (string * yaml)) (key : string)
  : result exception (list (string * yaml)) :=
  match items with
  | [] => Raises KeyError
  | (k, v) :: items' =>
      if String.eqb k key then Returns items'
      else do rest <- delitem items' key; Returns ((k, v) :: rest)
  end.

Section Attributes.

(** The names that ordinary lookup finds on the class. *)
Variable class_attribute : string -> bool.

(** [ad.name]: ordinary lookup first, [__getattr__] when that fails. *)
Definition getattr (ad : AttributeDict) (name : string)
  : result exception attribute :=
  if String.eqb name "_label" then Returns (Label (_label ad))
  else if class_attribute name then Returns (ClassAttribute name)
  else
    match lookup_key name (entries ad) with
    | Some value => Returns (Item value)
    | None => Raises AttributeError
    end.

End Attributes.

(** [ad.name = value], that is [dict.__setitem__(ad, name, value)]. *)
Definition setattr (ad : AttributeDict) (name : string) (value : yaml)
  : AttributeDict :=
  {| entries := setitem (entries ad) name value; _label := _label ad |}.

(** [del ad.name], that is [dict.__delitem__(ad, name)]. *)
Definition delattr (ad : AttributeDict) (name : string)
  : result exception AttributeDict :=
  do rest <- delitem (entries ad) name;
  Returns {| entries := rest; _label := _label ad |}.

(** *** Example surroundings *)

Definition power_duration_curve : list (string * yaml) :=
  [ ("TIME_GRANULARITY", YFloat 1);
    ("MIN_WINDOW_DURATION", YInt 10);
    ("WINDOW_DURATION_STEP", YInt 60) ].

Definition settings_document : yaml :=
  YMap [ ("Power Duration Curve", YMap power_duration_curve) ].

(** A caller in [/app], [settings.py] in [/pkg], and nothing but the given
    file next to [settings.py]. *)
Definition environment_with (file : option contents) : environment :=
  {| files := match file with
              | Some c => {[ "/pkg/settings.yaml" := c ]}
              | None => ∅
              end;
     caller_dir := "/app";
     this_file_location := "/pkg";
     resolve := fun location => location |}.

End Settings.

(** * data_extraction.py *)
Module DataExtraction.

Local Open Scope string_scope.
Local Open Scope Q_scope.

Inductive DataType : Type :=
| TIME | LATITUDE | LONGITUDE | POWER | HEART_RATE | CADENCE | GROUND_TIME
| VERTICAL_OSCILLATION | AIR_POWER | FORM_POWER | LEG_SPRING_STIFFNESS.

(** The value of a member of the enumeration, which is the name of the
    field in the FIT file. *)
Definition field_name (data_type : DataType) : string :=
  match data_type with
  | TIME => "timestamp"
  | LATITUDE => "position_lat"
  | LONGITUDE => "position_long"
  | POWER => "Power"
  | HEART_RATE => "heart_rate"
  | CADENCE => "Cadence"
  | GROUND_TIME => "Ground Time"
  | VERTICAL_OSCILLATION => "Vertical Oscillation"
  | AIR_POWER => "Air Power"
  | FORM_POWER => "Form Power"
  | LEG_SPRING_STIFFNESS => "Leg Spring Stiffness"
  end.

(** What [fitdecode] hands out as the value of a field: [None], a number, a
    [datetime] (given here in seconds since some epoch), or something
    [float()] does not take (a tuple, say). *)
Inductive field_value : Type :=
| FNone
| FNumber (x : Q)
| FDatetime (seconds : Q)
| FOther.

(** What iterating over a [FitReader] gives: data messages, with a name and
    named fields, and frames of other kinds (header, definitions, CRC). *)
Inductive frame : Type :=
| FitDataMessage (name : string) (fields : list (string * field_value))
| OtherFrame.

Inductive exception : Type :=
| KeyError
| TypeError
| AttributeError.

(** [frame.has_field(name)] *)
Definition has_field (fields : list (string * field_value)) (name : string)
  : bool :=
  existsb (fun field => String.eqb (fst field) name) fields.

(** [frame.get_value(name)]: the value of the first field of that name. *)
Fixpoint get_value (fields : list (string * field_value)) (name : string)
  : result exception field_value :=
  match fields with
  | [] => Raises KeyError
  | (key, value) :: fields' =>
      if String.eqb key name then Returns value else get_value fields' name
  end.

(** [float(value)] *)
Definition float (value : field_value) : result exception Q :=
  match value with
  | FNumber x => Returns x
  | FNone | FDatetime _ | FOther => Raises TypeError
  end.

(** [(timepoint - time0).total_seconds()] *)
Definition elapsed_seconds (timepoint time0 : field_value)
  : result exception Q :=
  match timepoint, time0 with
  | FDatetime t, FDatetime t0 => Returns (t - t0)
  | FNumber _, FNumber _ => Raises AttributeError
  | _, _ => Raises TypeError
  end.

(** The local variables of [get_data]. *)
Record state : Type := State {
  time : list Q;
  data : list Q;
  time0 : field_value
}.

(** The body of the loop over the frames. *)
Definition process (data_type : DataType) (st : state) (fr : frame)
  : result exception state :=
  match fr with
  | OtherFrame => Returns st
  | FitDataMessage name fields =>
      if negb (String.eqb name "record") then Returns st
      else if negb (has_field fields (field_name data_type)) then Returns st
      else
        do timepoint <- get_value fields (field_name TIME);
        do value <- get_value fields (field_name data_type);
        match value with
        | FNone => Returns st
        | _ =>
            do x <- float value;
            let data' := (data st ++ [x])%list in
            let time0' :=
              match time0 st with
              | FNone => timepoint
              | _ => time0 st
              end in
            do seconds <- elapsed_seconds timepoint time0';
            Returns (State (time st ++ [seconds])%list data' time0')
        end
  end.

Fixpoint read_frames (data_type : DataType) (frames : list frame) (st : state)
  : result exception state :=
  match frames with
  | [] => Returns st
  | fr :: frames' =>
      do st' <- process data_type st fr;
      read_frames data_type frames' st'
  end.

(** [get_data], on the frames the reader finds in the file. *)
Definition get_data (frames : list frame) (data_type : DataType)
  : result exception (list Q * list Q) :=
  do st <- read_frames data_type frames (State [] [] FNone);
  Returns (time st, data st).

(** *** Vocabulary of the specification *)

(** The record's value for the channel is present. *)
Definition value_present (data_type : DataType) (fr : frame) : bool :=
  match fr with
  | OtherFrame => false
  | FitDataMessage name fields =>
      String.eqb name "record" &&
      match get_value fields (field_name data_type) with
      | Returns FNone | Raises _ => false
      | Returns _ => true
      end
  end.

(** The loop body gets through the frame without an exception: a record
    that has the channel's field also has a time stamp, and when the value
    is present it is a number and the time stamp a [datetime]. *)
Definition readable (data_type : DataType) (fr : frame) : bool :=
  match fr with
  | OtherFrame => true
  | FitDataMessage name fields =>
      negb (String.eqb name "record") ||
      match get_value fields (field_name data_type),
            get_value fields (field_name TIME) with
      | Raises _, _ => true
      | Returns _, Raises _ => false
      | Returns FNone, Returns _ => true
      | Returns (FNumber _), Returns (FDatetime _) => true
      | Returns _, Returns _ => false
      end
  end.

(** What holds of the local variables between two frames: the two arrays
    have the same length, and [time0] is [None] or a [datetime]. *)
Definition aligned (st : state) : Prop :=
  length (time st) = length (data st) /\
  (time0 st = FNone \/ exists t0, time0 st = FDatetime t0).

(** *** The getters built on [get_data] *)

(** [ANGLE_CONVERSION = 2.**32 / 360.] *)
Definition ANGLE_CONVERSION : Q := inject_Z (2 ^ 32) / 360.

(** [angular_coordinate_to_degrees], on one coordinate. *)
Definition angular_coordinate_to_degrees (angular_coordinate : Q) : Q :=
  angular_coordinate / ANGLE_CONVERSION.

Definition get_latitude (frames : list frame)
  : result exception (list Q * list Q) :=
  do extracted <- get_data frames LATITUDE;
  Returns (fst extracted, map angular_coordinate_to_degrees (snd extracted)).

Definition get_longitude (frames : list frame)
  : result exception (list Q * list Q) :=
  do extracted <- get_data frames LONGITUDE;
  Returns (fst extracted, map angular_coordinate_to_degrees (snd extracted)).

Definition get_cadence (frames : list frame)
  : result exception (list Q * list Q) :=
  do extracted <- get_data frames CADENCE;
  Returns (fst extracted, map (Qmult 2) (snd extracted)).

(** The records that carry a number for the channel and a [datetime]: the
    time stamp (in seconds) and the number, record by record. *)
Definition samples (data_type : DataType) (frames : list frame)
  : list (Q * Q) :=
  flat_map
    (fun fr =>
       match fr with
       | OtherFrame => []
       | FitDataMessage name fields =>
           if String.eqb name "record"
           then match get_value fields (field_name data_type),
                      get_value fields (field_name TIME) with
                | Returns (FNumber x), Returns (FDatetime t) => [(t, x)]
                | _, _ => []
                end
           else []
       end) frames.

(** A coordinate as the FIT file stores it: a signed 32-bit integer. *)
Definition sint32 (x : Q) : Prop :=
  exists n : Z, x = inject_Z n /\ (- 2 ^ 31 <= n < 2 ^ 31)%Z.

(** *** Example recordings *)

Definition recording : list frame :=
  [ OtherFrame;
    FitDataMessage "file_id" [("type", FNumber 4)];
    FitDataMessage "record"
      [("timestamp", FDatetime 1000); ("heart_rate", FNumber 120)];
    FitDataMessage "record"
      [("timestamp", FDatetime 1001); ("heart_rate", FNone)];
    FitDataMessage "record" [("timestamp", FDatetime 1002)];
    FitDataMessage "record"
      [("timestamp", FDatetime 1003); ("heart_rate", FNumber 125)] ].

End DataExtraction.

(** * Properties of window.py *)

Import Window.
Local Open Scope Q_scope.

Lemma Qltb_lt (x y : Q) : Qltb x y = true <-> (x < y)%Q.
Proof.
  unfold Qltb. rewrite negb_true_iff, <- not_true_iff_false, Qle_bool_iff.
  split; [apply Qnot_le_lt | apply Qlt_not_le].
Qed.

Lemma Qltb_ge (x y : Q) : Qltb x y = false <-> (y <= x)%Q.
Proof.
  unfold Qltb. rewrite negb_false_iff. apply Qle_bool_iff.
Qed.

(** *** Reading the index set *)

Lemma In_where_from (mask : list bool) : forall k i,
  In i (where_from k mask) <->
  (k <= i)%nat /\ nth_error mask (i - k) = Some true.
Proof.
  induction mask as [|m mask IH]; intros k i; simpl.
  - split; [tauto | intros [_ H]]. destruct (i - k)%nat; discriminate.
  - assert (Hstep : (S k <= i)%nat /\ nth_error mask (i - S k) = Some true <->
                    (k < i)%nat /\ nth_error (m :: mask) (i - k) = Some true).
    { split; intros [Hle Hn]; (split; [lia|]).
      - replace (i - k)%nat with (S (i - S k)) by lia. exact Hn.
      - replace (i - k)%nat with (S (i - S k)) in Hn by lia. exact Hn. }
    destruct m; simpl; rewrite ?IH, Hstep.
    + split.
      * intros [<- | [Hlt Hn]]; [|split; [lia | exact Hn]].
        split; [lia|]. now rewrite Nat.sub_diag.
      * intros [Hle Hn]. destruct (Nat.eq_dec k i) as [-> | Hne]; [now left|].
        right. split; [lia | exact Hn].
    + split.
      * intros [Hlt Hn]. split; [lia | exact Hn].
      * intros [Hle Hn]. split; [|exact Hn].
        destruct (Nat.eq_dec k i) as [-> | Hne]; [|lia].
        rewrite Nat.sub_diag in Hn. discriminate.
Qed.

Lemma last_cons {A : Type} (l : list A) : forall x d,
  last (x :: l) d = last l x.
Proof.
  induction l as [|y l IH]; intros x d; [reflexivity|].
  change (last (x :: y :: l) d) with (last (y :: l) d).
  now rewrite (IH y d), (IH y x).
Qed.

Lemma last_In {A : Type} (l : list A) : forall d, In (last l d) (d :: l).
Proof.
  induction l as [|x l IH]; intros d; [now left|].
  right. rewrite last_cons. apply IH.
Qed.

(** The positions come out in strictly increasing order, so the first one is
    the smallest and the last one the largest. *)
Lemma where_from_hd_least (mask : list bool) : forall k first others,
  where_from k mask = first :: others ->
  forall i, In i (first :: others) -> (first <= i)%nat.
Proof.
  induction mask as [|m mask IH]; intros k first others Hw i Hi; [discriminate|].
  simpl in Hw. destruct m.
  - injection Hw as <- <-. destruct Hi as [<- | Hi]; [lia|].
    apply In_where_from in Hi. lia.
  - eapply IH; eauto.
Qed.

Lemma where_from_last_greatest (mask : list bool) : forall k first others,
  where_from k mask = first :: others ->
  forall i, In i (first :: others) -> (i <= last others first)%nat.
Proof.
  induction mask as [|m mask IH]; intros k first others Hw i Hi; [discriminate|].
  simpl in Hw. destruct m; [|eapply IH; eauto].
  injection Hw as <- Hrest.
  destruct others as [|second others'].
  - destruct Hi as [<- | []]. simpl. lia.
  - rewrite last_cons. pose proof (IH _ _ _ Hrest) as Hmax.
    destruct Hi as [<- | Hi]; [|now apply Hmax].
    assert (In second (where_from (S k) mask)) as Hin
      by (rewrite Hrest; now left).
    apply In_where_from in Hin.
    specialize (Hmax second (or_introl eq_refl)). lia.
Qed.

Example window_indices_scenario :
  window_indices scenario_time 9 12 = [4; 5]%nat /\
  window_indices scenario_time 6 9 = [].
Proof. split; reflexivity. Qed.

Lemma In_window_indices (time : list Q) (b e : Q) (i : nat) :
  In i (window_indices time b e) <->
  exists t, nth_error time i = Some t /\ b <= t /\ t < e.
Proof.
  unfold window_indices, where_. rewrite In_where_from, Nat.sub_0_r, nth_error_map.
  unfold in_window. split.
  - intros [_ H]. destruct (nth_error time i) as [t|]; [|discriminate].
    injection H as H. apply andb_true_iff in H as [Hb He].
    exists t. repeat split; [now apply Qle_bool_iff | now apply Qltb_lt].
  - intros (t & -> & Hb & He). split; [lia|]. simpl. f_equal.
    apply andb_true_iff. split; [now apply Qle_bool_iff | now apply Qltb_lt].
Qed.

Lemma ascending_head (l : list Q) : forall x,
  ascending (x :: l) = true ->
  forall j t, nth_error l j = Some t -> x <= t.
Proof.
  induction l as [|y l IH]; intros x Hasc j t Hj.
  - destruct j; discriminate.
  - change (Qle_bool x y && ascending (y :: l) = true) in Hasc.
    apply andb_true_iff in Hasc as [Hxy Hrest]. apply Qle_bool_iff in Hxy.
    destruct j as [|j]; simpl in Hj.
    + injection Hj as <-. exact Hxy.
    + apply Qle_trans with y; [exact Hxy | eapply IH; eauto].
Qed.

Lemma ascending_tail (x : Q) (l : list Q) :
  ascending (x :: l) = true -> ascending l = true.
Proof.
  destruct l as [|y l]; [reflexivity|].
  intros H. change (Qle_bool x y && ascending (y :: l) = true) in H.
  now apply andb_true_iff in H as [_ H].
Qed.

Lemma ascending_nth_error (l : list Q) : ascending l = true ->
  forall i j ti tj, (i <= j)%nat ->
  nth_error l i = Some ti -> nth_error l j = Some tj -> ti <= tj.
Proof.
  induction l as [|x l IH]; intros Hasc i j ti tj Hij Hi Hj.
  - destruct i; discriminate.
  - destruct i as [|i], j as [|j]; simpl in Hi, Hj; try lia.
    + injection Hi as <-. injection Hj as <-. apply Qle_refl.
    + injection Hi as <-. eapply ascending_head; eauto.
    + eapply (IH (ascending_tail _ _ Hasc) i j); eauto. lia.
Qed.

(** *** One window *)

Section OneWindow.

Context {V R K : Type}.
Variable time : list Q.
Variable signal : list V.
Variable function : call_args V -> K -> outcome R.
Variable pass_time_in_window : bool.
Variable kwargs : K.

Let yield_of := window_yield time signal function pass_time_in_window kwargs.
Let output_of := call_function time signal function pass_time_in_window kwargs.

Lemma window_yield_None (b e : Q) :
  yield_of b e = None <-> window_indices time b e = [].
Proof.
  unfold yield_of, window_yield.
  destruct (window_indices time b e); split; congruence.
Qed.

Lemma window_yield_Some (b e : Q) (d : descriptor R) :
  yield_of b e = Some d ->
  window_begin_time d = b /\ window_end_time d = e /\
  In (window_begin_index d) (window_indices time b e) /\
  In (window_end_index d) (window_indices time b e) /\
  (forall i, In i (window_indices time b e) ->
             (window_begin_index d <= i <= window_end_index d)%nat) /\
  function_output d = output_of (window_end_index d).
Proof.
  unfold yield_of, window_yield, window_indices, where_.
  destruct (where_from 0 (map (in_window b e) time)) as [|first others] eqn:Hw;
    [discriminate|].
  intros [= <-]. simpl. repeat split.
  - now left.
  - apply last_In.
  - eapply where_from_hd_least; eauto.
  - eapply where_from_last_greatest; eauto.
Qed.

(** Between the first and the last position of a window of a sorted series
    every sample lies in the window. *)
Lemma window_yield_covers (b e : Q) (d : descriptor R) :
  ascending time = true ->
  yield_of b e = Some d ->
  forall i, (window_begin_index d <= i <= window_end_index d)%nat ->
  exists t, nth_error time i = Some t /\ b <= t /\ t < e.
Proof.
  intros Hasc Hy i [Hlo Hhi].
  apply window_yield_Some in Hy as (_ & _ & Hb & He & _ & _).
  apply In_window_indices in Hb as (tb & Hnb & Hbb & _).
  apply In_window_indices in He as (te & Hne & _ & Hee).
  assert (Hlen : (i < length time)%nat).
  { apply Nat.le_lt_trans with (window_end_index d); [exact Hhi|].
    apply nth_error_Some. congruence. }
  destruct (nth_error time i) as [t|] eqn:Hi;
    [|apply nth_error_None in Hi; lia].
  exists t. split; [reflexivity|]. split.
  - apply Qle_trans with tb; [exact Hbb|].
    apply (ascending_nth_error time Hasc _ _ _ _ Hlo Hnb Hi).
  - apply Qle_lt_trans with te; [|exact Hee].
    apply (ascending_nth_error time Hasc _ _ _ _ Hhi Hi Hne).
Qed.

(** A later window of a sorted series begins and ends no earlier in the
    series. *)
Lemma window_yield_monotone (b1 e1 b2 e2 : Q) (d1 d2 : descriptor R) :
  ascending time = true ->
  b1 <= b2 -> e1 <= e2 ->
  yield_of b1 e1 = Some d1 -> yield_of b2 e2 = Some d2 ->
  (window_begin_index d1 <= window_begin_index d2)%nat /\
  (window_end_index d1 <= window_end_index d2)%nat.
Proof.
  intros Hasc Hb He Hy1 Hy2.
  apply window_yield_Some in Hy1 as (_ & _ & Hb1 & He1 & Hr1 & _).
  apply window_yield_Some in Hy2 as (_ & _ & Hb2 & He2 & Hr2 & _).
  pose proof Hb1 as Hb1'. pose proof He1 as He1'.
  pose proof Hb2 as Hb2'. pose proof He2 as He2'.
  apply In_window_indices in Hb1' as (t1 & Hn1 & Hlo1 & Hhi1).
  apply In_window_indices in He1' as (u1 & Hm1 & Hlo1' & Hhi1').
  apply In_window_indices in Hb2' as (t2 & Hn2 & Hlo2 & Hhi2).
  apply In_window_indices in He2' as (u2 & Hm2 & Hlo2' & Hhi2').
  split.
  - destruct (Nat.le_gt_cases (window_begin_index d1) (window_begin_index d2))
      as [Hle | Hgt]; [exact Hle|].
    (* the first sample of the later window would belong to the earlier one *)
    assert (In (window_begin_index d2) (window_indices time b1 e1)) as Hin.
    { apply In_window_indices. exists t2. split; [exact Hn2|]. split.
      - apply Qle_trans with b2; assumption.
      - apply Qle_lt_trans with t1; [|exact Hhi1].
        apply (ascending_nth_error time Hasc _ _ _ _
                 (Nat.lt_le_incl _ _ Hgt) Hn2 Hn1). }
    apply Hr1 in Hin. lia.
  - destruct (Nat.le_gt_cases (window_end_index d1) (window_end_index d2))
      as [Hle | Hgt]; [exact Hle|].
    (* the last sample of the earlier window would belong to the later one *)
    assert (In (window_end_index d1) (window_indices time b2 e2)) as Hin.
    { apply In_window_indices. exists u1. split; [exact Hm1|]. split.
      - apply Qle_trans with u2; [exact Hlo2'|].
        apply (ascending_nth_error time Hasc _ _ _ _
                 (Nat.lt_le_incl _ _ Hgt) Hm2 Hm1).
      - apply Qlt_le_trans with e1; assumption. }
    apply Hr2 in Hin. lia.
Qed.

End OneWindow.

(** *** The two loops *)

Lemma offset_0 (s : Q) : offset s 0 == 0.
Proof. unfold offset. simpl. ring. Qed.

Lemma offset_S (s : Q) (n : nat) : offset s (S n) == offset s n + s.
Proof.
  unfold offset. rewrite Nat2Z.inj_succ. unfold Z.succ.
  rewrite inject_Z_plus. ring.
Qed.

Lemma offset_pos (s : Q) (n : nat) : 0 < s -> (0 < n)%nat -> 0 < offset s n.
Proof.
  intros Hs Hn. unfold offset.
  apply Qmult_lt_0_compat; [|exact Hs].
  change 0 with (inject_Z 0). rewrite <- Zlt_Qlt. lia.
Qed.

(** Finitely many positive steps reach any time. *)
Lemma offset_reaches (s x : Q) : 0 < s -> exists n, x <= offset s n.
Proof.
  intros Hs. exists (Z.to_nat (Qceiling (x / s))). unfold offset.
  assert (Hc : x / s <= inject_Z (Z.of_nat (Z.to_nat (Qceiling (x / s))))).
  { apply Qle_trans with (inject_Z (Qceiling (x / s))); [apply Qle_ceiling|].
    rewrite <- Zle_Qle. lia. }
  apply (Qmult_le_compat_r _ _ s) in Hc; [|now apply Qlt_le_weak].
  assert (Hx : x / s * s == x) by (field; intros H; rewrite H in Hs; lra).
  now rewrite Hx in Hc.
Qed.

Lemma fast_forward_spec (first s : Q) : forall fuel b e b' e',
  fast_forward fuel first s b e = Some (b', e') ->
  exists k, b' == b + offset s k /\ e' == e + offset s k /\ first <= e' /\
            forall j, (j < k)%nat -> e + offset s j < first.
Proof.
  induction fuel as [|fuel IH]; intros b e b' e' H; [discriminate|].
  simpl in H. destruct (Qltb e first) eqn:Hlt.
  - apply IH in H as (k & Hb & He & Hfirst & Hbefore).
    exists (S k). rewrite offset_S. repeat split.
    + rewrite Hb. ring.
    + rewrite He. ring.
    + exact Hfirst.
    + intros [|j] Hj.
      * rewrite offset_0. apply Qltb_lt in Hlt. lra.
      * rewrite offset_S. specialize (Hbefore j ltac:(lia)). lra.
  - injection H as <- <-. exists 0%nat. rewrite offset_0.
    apply Qltb_ge in Hlt. repeat split; try ring; [exact Hlt | lia].
Qed.

Lemma fast_forward_enough (first s : Q) : forall n fuel b e,
  first <= e + offset s n -> (n < fuel)%nat ->
  exists w, fast_forward fuel first s b e = Some w.
Proof.
  induction n as [|n IH]; intros [|fuel] b e Hreach Hfuel; try lia; simpl.
  - rewrite offset_0 in Hreach.
    assert (Qltb e first = false) as -> by (apply Qltb_ge; lra). eauto.
  - destruct (Qltb e first); [|eauto].
    apply IH; [|lia]. rewrite offset_S in Hreach. lra.
Qed.

Lemma fast_forward_more_fuel (first s : Q) : forall fuel fuel' b e w,
  fast_forward fuel first s b e = Some w -> (fuel <= fuel')%nat ->
  fast_forward fuel' first s b e = Some w.
Proof.
  induction fuel as [|fuel IH]; intros [|fuel'] b e w H Hle;
    try discriminate; try lia.
  simpl in *. destruct (Qltb e first); [|exact H].
  apply IH; [exact H | lia].
Qed.

Section Loop.

Context {V R K : Type}.
Variable time : list Q.
Variable signal : list V.
Variable time_step : Q.
Variable function : call_args V -> K -> outcome R.
Variable pass_time_in_window : bool.
Variable kwargs : K.

Let yield_of := window_yield time signal function pass_time_in_window kwargs.
Let loop := window_loop time signal time_step function pass_time_in_window kwargs.

Lemma window_loop_nonempty (last_time : Q) : forall fuel b e its,
  loop fuel last_time b e = Some its -> its <> [].
Proof.
  intros [|fuel] b e its H; [discriminate|].
  unfold loop in H. simpl in H. destruct (Qltb e last_time).
  - destruct window_loop; [|discriminate]. injection H as <-. discriminate.
  - injection H as <-. discriminate.
Qed.

(** The [n]-th iteration tests the window moved by [n] steps, and the loop
    goes on exactly while the window ends before [time[-1]]. *)
Lemma window_loop_spec (last_time : Q) : forall fuel b e its,
  loop fuel last_time b e = Some its ->
  forall n it, nth_error its n = Some it ->
    tested_begin it == b + offset time_step n /\
    tested_end it == e + offset time_step n /\
    yielded it = yield_of (tested_begin it) (tested_end it) /\
    ((S n < length its)%nat -> tested_end it < last_time) /\
    ((S n = length its)%nat -> last_time <= tested_end it).
Proof.
  induction fuel as [|fuel IH]; intros b e its H n it Hn; [discriminate|].
  unfold loop in H. simpl in H. destruct (Qltb e last_time) eqn:Hlt.
  - destruct window_loop as [its'|] eqn:Hrec; [|discriminate].
    injection H as <-.
    pose proof (window_loop_nonempty _ _ _ _ _ Hrec) as Hne.
    destruct n as [|n]; simpl in Hn.
    + injection Hn as <-. simpl. rewrite offset_0. repeat split; try ring.
      * intros _. now apply Qltb_lt.
      * intros Hlen. destruct its'; [congruence | simpl in Hlen; lia].
    + destruct (IH _ _ _ Hrec n it Hn) as (Hb & He & Hy & Hgo & Hstop).
      rewrite offset_S. repeat split.
      * rewrite Hb. ring.
      * rewrite He. ring.
      * exact Hy.
      * intros Hlen. apply Hgo. simpl in Hlen. lia.
      * intros Hlen. apply Hstop. simpl in Hlen. lia.
  - injection H as <-. destruct n as [|[|n]]; simpl in Hn; try discriminate.
    injection Hn as <-. simpl. rewrite offset_0. repeat split; try ring.
    + intros Hlen. lia.
    + intros _. now apply Qltb_ge.
Qed.

Lemma window_loop_enough (last_time : Q) : forall n fuel b e,
  last_time <= e + offset time_step n -> (n < fuel)%nat ->
  exists its, loop fuel last_time b e = Some its.
Proof.
  induction n as [|n IH]; intros [|fuel] b e Hreach Hfuel; try lia;
    unfold loop; simpl.
  - rewrite offset_0 in Hreach.
    assert (Qltb e last_time = false) as -> by (apply Qltb_ge; lra). eauto.
  - destruct (Qltb e last_time); [|eauto].
    destruct (IH fuel (b + time_step) (e + time_step)) as [its Hits];
      [rewrite offset_S in Hreach; lra | lia |].
    unfold loop in Hits. rewrite Hits. simpl. eauto.
Qed.

Lemma window_loop_more_fuel (last_time : Q) : forall fuel fuel' b e its,
  loop fuel last_time b e = Some its -> (fuel <= fuel')%nat ->
  loop fuel' last_time b e = Some its.
Proof.
  induction fuel as [|fuel IH]; intros [|fuel'] b e its H Hle;
    try discriminate; try lia.
  unfold loop in *. simpl in *. destruct (Qltb e last_time); [|exact H].
  destruct (window_loop _ _ _ _ _ _ fuel) as [its'|] eqn:Hrec; [|discriminate].
  rewrite (IH fuel' _ _ _ Hrec); [exact H | lia].
Qed.

End Loop.

Section Alignment.

Variable time : list Q.
Variable window_length time_step : Q.

Lemma aligned_window_inv (fuel : nat) (time0 : option Q) (b e : Q) :
  aligned_window time window_length time_step fuel time0 = Finished (b, e) ->
  exists first rest, time = first :: rest /\
    fast_forward fuel first time_step (origin_of first time0)
      (origin_of first time0 + window_length) = Some (b, e).
Proof.
  unfold aligned_window. destruct time as [|first rest]; [discriminate|].
  intros H. exists first, rest. split; [reflexivity|].
  simpl in H. destruct fast_forward as [w|]; [|discriminate].
  now injection H as ->.
Qed.

Lemma aligned_window_terminates (time0 : option Q) :
  time <> [] -> 0 < time_step ->
  exists fuel b e, forall fuel', (fuel <= fuel')%nat ->
    aligned_window time window_length time_step fuel' time0 = Finished (b, e).
Proof.
  intros Hne Hstep. unfold aligned_window.
  destruct time as [|first rest]; [congruence|].
  set (origin := origin_of first time0).
  destruct (offset_reaches time_step (first - (origin + window_length)) Hstep)
    as [n Hn].
  destruct (fast_forward_enough first time_step n (S n) origin
              (origin + window_length)) as [[b e] Hff]; [lra | lia |].
  exists (S n), b, e. intros fuel' Hfuel.
  now rewrite (fast_forward_more_fuel _ _ _ _ _ _ _ Hff Hfuel).
Qed.

(** Fast-forwarding keeps the length of the window. *)
Lemma aligned_window_length (fuel : nat) (time0 : option Q) (b e : Q) :
  aligned_window time window_length time_step fuel time0 = Finished (b, e) ->
  e == b + window_length.
Proof.
  intros Hal. apply aligned_window_inv in Hal as (first & rest & _ & Hff).
  apply fast_forward_spec in Hff as (k & Hb & He & _).
  rewrite Hb, He. ring.
Qed.

End Alignment.

(** *** A whole run of the generator *)

Section Run.

Context {V R K : Type}.
Variable time : list Q.
Variable signal : list V.
Variable window_length time_step : Q.
Variable function : call_args V -> K -> outcome R.
Variable pass_time_in_window : bool.
Variable kwargs : K.

Let yield_of := window_yield time signal function pass_time_in_window kwargs.
Let loop := window_loop time signal time_step function pass_time_in_window kwargs.
Let trace :=
  moving_window_trace time signal window_length time_step function
    pass_time_in_window kwargs.
Let generator :=
  moving_window time signal window_length time_step function
    pass_time_in_window kwargs.
Let aligned := aligned_window time window_length time_step.

Lemma moving_window_trace_inv (fuel : nat) (time0 : option Q) its :
  trace fuel time0 = Finished its ->
  exists b e, aligned fuel time0 = Finished (b, e) /\
              loop fuel (last time 0) b e = Some its.
Proof.
  unfold trace, moving_window_trace, aligned, loop.
  destruct aligned_window as [[b e]| |]; try discriminate.
  destruct window_loop as [its'|] eqn:Hloop; [|discriminate].
  intros [= <-]. exists b, e. split; [reflexivity | exact Hloop].
Qed.

Lemma moving_window_inv (fuel : nat) (time0 : option Q) ds :
  generator fuel time0 = Finished ds ->
  exists its, trace fuel time0 = Finished its /\ ds = yields its.
Proof.
  unfold generator, moving_window, trace.
  destruct moving_window_trace as [its| |]; try discriminate.
  intros [= <-]. eauto.
Qed.

Lemma In_yields (its : list (iteration R)) (d : descriptor R) :
  In d (yields its) <-> exists it, In it its /\ yielded it = Some d.
Proof.
  unfold yields. rewrite in_flat_map. split.
  - intros (it & Hit & Hd). exists it. split; [exact Hit|].
    destruct (yielded it); [|destruct Hd].
    destruct Hd as [<- | []]. reflexivity.
  - intros (it & Hit & Hy). exists it. split; [exact Hit|].
    rewrite Hy. now left.
Qed.

Lemma yields_length (its : list (iteration R)) :
  (length (yields its) <= length its)%nat.
Proof.
  induction its as [|it its IH]; [reflexivity|].
  unfold yields in *. simpl. rewrite length_app.
  destruct (yielded it); simpl; lia.
Qed.

(** Every yielded tuple is what [window_yield] gives for its own interval,
    and that interval is the aligned one moved by some number of steps. *)
Lemma emitted_inv (fuel : nat) (time0 : option Q) ds :
  generator fuel time0 = Finished ds ->
  forall d, In d ds ->
    yield_of (window_begin_time d) (window_end_time d) = Some d /\
    exists b e n, aligned fuel time0 = Finished (b, e) /\
      window_begin_time d == b + offset time_step n /\
      window_end_time d == e + offset time_step n.
Proof.
  intros Hgen d Hd.
  apply moving_window_inv in Hgen as (its & Htrace & ->).
  apply moving_window_trace_inv in Htrace as (b & e & Hal & Hloop).
  apply In_yields in Hd as (it & Hit & Hy).
  apply In_nth_error in Hit as [n Hn].
  destruct (window_loop_spec _ _ _ _ _ _ _ _ _ _ _ Hloop n it Hn)
    as (Hb & He & Hyield & _).
  rewrite Hy in Hyield. symmetry in Hyield.
  pose proof (window_yield_Some _ _ _ _ _ _ _ _ Hyield) as (Hdb & Hde & _).
  split.
  - fold yield_of in Hyield. now rewrite Hdb, Hde.
  - exists b, e, n. rewrite Hdb, Hde. auto.
Qed.

Lemma moving_window_trace_terminates (time0 : option Q) :
  time <> [] -> 0 < time_step ->
  exists fuel b e its, forall fuel', (fuel <= fuel')%nat ->
    aligned fuel' time0 = Finished (b, e) /\
    trace fuel' time0 = Finished its /\
    generator fuel' time0 = Finished (yields its).
Proof.
  intros Hne Hstep.
  destruct (aligned_window_terminates time window_length time_step time0
              Hne Hstep) as (f1 & b & e & Hal).
  destruct (offset_reaches time_step (last time 0 - e) Hstep) as [n Hn].
  destruct (window_loop_enough time signal time_step function
              pass_time_in_window kwargs (last time 0) n (S n) b e)
    as [its Hloop]; [lra | lia |].
  exists (Nat.max f1 (S n)), b, e, its. intros fuel' Hfuel.
  assert (Htrace : trace fuel' time0 = Finished its).
  { unfold trace, moving_window_trace.
    rewrite (Hal fuel') by lia.
    rewrite (window_loop_more_fuel _ _ _ _ _ _ _ _ _ _ _ _ Hloop) by lia.
    reflexivity. }
  split; [apply Hal; lia|]. split; [exact Htrace|].
  unfold generator, moving_window. fold trace. now rewrite Htrace.
Qed.

Lemma moving_window_trace_more_fuel (fuel fuel' : nat) (time0 : option Q) its :
  trace fuel time0 = Finished its -> (fuel <= fuel')%nat ->
  trace fuel' time0 = Finished its.
Proof.
  intros Htrace Hfuel.
  apply moving_window_trace_inv in Htrace as (b & e & Hal & Hloop).
  apply aligned_window_inv in Hal as (first & rest & Htime & Hff).
  unfold trace, moving_window_trace, aligned_window.
  unfold loop in Hloop. rewrite Htime in *.
  rewrite (fast_forward_more_fuel _ _ _ _ _ _ _ Hff Hfuel).
  now rewrite (window_loop_more_fuel _ _ _ _ _ _ _ _ _ _ _ _ Hloop Hfuel).
Qed.

Lemma moving_window_more_fuel (fuel fuel' : nat) (time0 : option Q) ds :
  generator fuel time0 = Finished ds -> (fuel <= fuel')%nat ->
  generator fuel' time0 = Finished ds.
Proof.
  intros Hgen Hfuel.
  apply moving_window_inv in Hgen as (its & Htrace & ->).
  unfold generator, moving_window. fold trace.
  now rewrite (moving_window_trace_more_fuel _ _ _ _ Htrace Hfuel).
Qed.

End Run.

(** *** The claims about the window engine *)

(** C3. Over a series sorted ascending, every tuple the generator yields has
    [window_begin_index <= window_end_index], and every position from
    [window_begin_index] to [window_end_index] holds a time point [t] with
    [window_begin_time <= t < window_end_time]; an iteration whose index set
    is empty yields nothing, the yielded tuples being exactly those of the
    iterations with a non-empty index set.  (Neither the positivity of the
    window length and of the step nor the non-emptiness of the series, which
    a finished run implies, is needed.) *)
Theorem emitted_window_invariant {V R K : Type}
    (time : list Q) (signal : list V) (window_length time_step : Q)
    (function : call_args V -> K -> outcome R) (pass_time_in_window : bool)
    (kwargs : K) (fuel : nat) (time0 : option Q) (its : list (iteration R)) :
  ascending time = true ->
  moving_window_trace time signal window_length time_step function
    pass_time_in_window kwargs fuel time0 = Finished its ->
  moving_window time signal window_length time_step function
    pass_time_in_window kwargs fuel time0 = Finished (yields its) /\
  (forall d, In d (yields its) ->
     (window_begin_index d <= window_end_index d)%nat /\
     forall i, (window_begin_index d <= i <= window_end_index d)%nat ->
       exists t, nth_error time i = Some t /\
                 window_begin_time d <= t /\ t < window_end_time d) /\
  (forall it, In it its ->
     match yielded it with
     | None => window_indices time (tested_begin it) (tested_end it) = []
     | Some d => window_indices time (tested_begin it) (tested_end it) <> []
     end).
Proof.
  intros Hasc Htrace.
  assert (Hgen : moving_window time signal window_length time_step function
            pass_time_in_window kwargs fuel time0 = Finished (yields its))
    by (unfold moving_window; now rewrite Htrace).
  split; [exact Hgen|]. split.
  - intros d Hd.
    destruct (emitted_inv _ _ _ _ _ _ _ _ _ _ Hgen d Hd) as [Hy _].
    split.
    + apply window_yield_Some in Hy as (_ & _ & Hb & _ & Hrange & _).
      apply Hrange in Hb. lia.
    + intros i Hi. eapply window_yield_covers; eauto.
  - intros it Hit.
    apply moving_window_trace_inv in Htrace as (b & e & _ & Hloop).
    apply In_nth_error in Hit as [n Hn].
    destruct (window_loop_spec _ _ _ _ _ _ _ _ _ _ _ Hloop n it Hn)
      as (_ & _ & Hy & _).
    rewrite Hy. unfold window_yield.
    destruct (window_indices time (tested_begin it) (tested_end it));
      [reflexivity | discriminate].
Qed.

Lemma emitted_window_invariant_witness :
  ascending scenario_time = true /\
  exists its,
    moving_window_trace scenario_time scenario_signal 3 3 python_sum false tt
      4 (Some 0) = Finished its /\
    length (yields its) = 3%nat /\
    forall d, In d (yields its) ->
      (window_begin_index d <= window_end_index d)%nat /\
      forall i, (window_begin_index d <= i <= window_end_index d)%nat ->
        exists t, nth_error scenario_time i = Some t /\
                  window_begin_time d <= t /\ t < window_end_time d.
Proof.
  split; [reflexivity|].
  eexists. split; [vm_compute; reflexivity|]. split; [reflexivity|].
  apply (emitted_window_invariant scenario_time scenario_signal 3 3 python_sum
           false tt 4 (Some 0)); reflexivity.
Defined.

(** C2. Scenario A of the specification: time points [0,1,2,3,10,11,12],
    values [1,...,7], window length 3, step 3, origin 0, [sum] called on the
    values only.  Every run of the generator that finishes tests the four
    windows [0,3), [3,6), [6,9) and [9,12) and yields three tuples, for
    [0,3), [3,6) and [9,12); since [12 < 12] is false the loop stops there,
    so the window [12,15) is never tested and no tuple has end index 6. *)
Theorem scenario_A_run (extra : nat) :
  moving_window_trace scenario_time scenario_signal 3 3 python_sum false tt
    (4 + extra) (Some 0) =
  Finished
    [ Iteration 0 3 (Some (Descriptor 0 3 0 2 (Some (inl 3))));
      Iteration 3 6 (Some (Descriptor 3 6 3 3 (Some (inl 6))));
      Iteration 6 9 None;
      Iteration 9 12 (Some (Descriptor 9 12 4 5 (Some (inl 15)))) ] /\
  moving_window scenario_time scenario_signal 3 3 python_sum false tt
    (4 + extra) (Some 0) =
  Finished
    [ Descriptor 0 3 0 2 (Some (inl 3));
      Descriptor 3 6 3 3 (Some (inl 6));
      Descriptor 9 12 4 5 (Some (inl 15)) ].
Proof.
  split.
  - apply (moving_window_trace_more_fuel _ _ _ _ _ _ _ 4); [|lia].
    vm_compute. reflexivity.
  - apply (moving_window_more_fuel _ _ _ _ _ _ _ 4); [|lia].
    vm_compute. reflexivity.
Qed.

(** What every yielded tuple records about the call made for it. *)
Lemma emitted_output {V R K : Type}
    (time : list Q) (signal : list V) (window_length time_step : Q)
    (function : call_args V -> K -> outcome R) (pass_time_in_window : bool)
    (kwargs : K) (fuel : nat) (time0 : option Q) (ds : list (descriptor R)) :
  moving_window time signal window_length time_step function
    pass_time_in_window kwargs fuel time0 = Finished ds ->
  forall d, In d ds ->
    function_output d =
      match function
              (window_content time signal pass_time_in_window
                 (window_end_index d)) kwargs with
      | Returned value => value
      | Raised => None
      end /\
    In (window_begin_index d)
       (window_indices time (window_begin_time d) (window_end_time d)) /\
    In (window_end_index d)
       (window_indices time (window_begin_time d) (window_end_time d)) /\
    (forall i, In i (window_indices time (window_begin_time d)
                       (window_end_time d)) ->
               (window_begin_index d <= i <= window_end_index d)%nat).
Proof.
  intros Hgen d Hd.
  destruct (emitted_inv _ _ _ _ _ _ _ _ _ _ Hgen d Hd) as [Hy _].
  apply window_yield_Some in Hy as (_ & _ & Hb & He & Hrange & Hout).
  repeat split; try assumption; now apply Hrange.
Qed.

(** C1 (as amended).  For every yielded tuple the function was called on the
    prefix of the series that starts at position 0 and stops just before
    position [window_end_index]: [time[:window_end_index]] and
    [signal[:window_end_index]] when the time points are passed, the second
    alone otherwise, both cut at the same position.  That prefix is not the
    window's own slice [window_begin_index .. window_end_index]: on the time
    channel the two always differ. *)
Theorem content_is_prefix_before_end_index {V R K : Type}
    (time : list Q) (signal : list V) (window_length time_step : Q)
    (function : call_args V -> K -> outcome R) (pass_time_in_window : bool)
    (kwargs : K) (fuel : nat) (time0 : option Q) (ds : list (descriptor R)) :
  moving_window time signal window_length time_step function
    pass_time_in_window kwargs fuel time0 = Finished ds ->
  forall d, In d ds ->
    function_output d =
      match function
              (if pass_time_in_window
               then TimeAndSignal (firstn (window_end_index d) time)
                                  (firstn (window_end_index d) signal)
               else SignalOnly (firstn (window_end_index d) signal))
              kwargs with
      | Returned value => value
      | Raised => None
      end /\
    firstn (window_end_index d) time <>
      slice time (window_begin_index d) (window_end_index d).
Proof.
  intros Hgen d Hd.
  destruct (emitted_output _ _ _ _ _ _ _ _ _ _ Hgen d Hd)
    as (Hout & Hb & He & Hrange).
  split; [exact Hout|]. intros Heq.
  pose proof (Hrange _ Hb) as [_ Hle].
  pose proof He as He'. apply In_window_indices in He' as (te & Hte & _).
  assert (Hlen : (window_end_index d < length time)%nat)
    by (apply nth_error_Some; congruence).
  (* equal lengths force the window to begin at position 1 *)
  assert (Hone : window_begin_index d = 1%nat).
  { apply (f_equal (@length Q)) in Heq. unfold slice in Heq.
    rewrite !length_firstn, length_skipn in Heq. lia. }
  (* and then the two lists start with time[0] and time[1] *)
  apply (f_equal (fun l => nth_error l 0)) in Heq. unfold slice in Heq.
  rewrite !nth_error_firstn, nth_error_skipn, Hone, Nat.add_0_r in Heq.
  assert (Hlt0 : Nat.ltb 0 (window_end_index d) = true)
    by (apply Nat.ltb_lt; lia).
  assert (Hlt1 : Nat.ltb 0 (S (window_end_index d) - 1) = true)
    by (apply Nat.ltb_lt; lia).
  rewrite Hlt0, Hlt1 in Heq.
  rewrite Hone in Hb. apply In_window_indices in Hb as (t1 & Ht1 & Hlo & Hhi).
  assert (In 0%nat (window_indices time (window_begin_time d)
                      (window_end_time d))) as Hin0.
  { apply In_window_indices. exists t1. rewrite Heq. auto. }
  apply Hrange in Hin0. lia.
Qed.

Lemma content_is_prefix_before_end_index_witness :
  let d := Descriptor 9 12 4 5
             (Some (TimeAndSignal [0; 1; 2; 3; 10] [1; 2; 3; 4; 5])) in
  exists ds,
    moving_window scenario_time scenario_signal 3 3 record_call true tt
      4 (Some 0) = Finished ds /\
    In d ds /\
    function_output d =
      Some (TimeAndSignal (firstn (window_end_index d) scenario_time)
                          (firstn (window_end_index d) scenario_signal)) /\
    firstn (window_end_index d) scenario_time <>
      slice scenario_time (window_begin_index d) (window_end_index d).
Proof.
  intros d. eexists. split; [vm_compute; reflexivity|].
  split; [right; right; left; reflexivity|].
  apply (content_is_prefix_before_end_index scenario_time scenario_signal 3 3
           record_call true tt 4 (Some 0) _ eq_refl d).
  right. right. left. reflexivity.
Defined.

(** C1 as written fails: in scenario A the first window has end index 2, and
    the function receives [time[:2]] and [signal[:2]], which stop short of
    position 2, not the prefix through position 2. *)
Lemma content_through_end_index_counterexample :
  exists ds d,
    moving_window scenario_time scenario_signal 3 3 record_call true tt
      4 (Some 0) = Finished ds /\
    In d ds /\
    window_begin_index d = 0%nat /\
    window_end_index d = 2%nat /\
    function_output d = Some (TimeAndSignal [0; 1] [1; 2]) /\
    function_output d <>
      Some (TimeAndSignal (slice scenario_time 0 (window_end_index d))
                          (slice scenario_signal 0 (window_end_index d))).
Proof.
  eexists. eexists. split; [vm_compute; reflexivity|].
  split; [now left|]. repeat split. vm_compute. discriminate.
Qed.

(** C9. For every yielded tuple the function was called on
    [time[0:window_end_index]] and [signal[0:window_end_index]].  Position
    [window_end_index] holds a sample of the window, but it is not part of
    either slice.  Hence a window ending at position 0 (its only sample is
    the first of the series) is yielded all the same, with the function
    called on empty slices. *)
Theorem content_excludes_end_index {V R K : Type}
    (time : list Q) (signal : list V) (window_length time_step : Q)
    (function : call_args V -> K -> outcome R) (pass_time_in_window : bool)
    (kwargs : K) (fuel : nat) (time0 : option Q) (ds : list (descriptor R)) :
  moving_window time signal window_length time_step function
    pass_time_in_window kwargs fuel time0 = Finished ds ->
  forall d, In d ds ->
    let e := window_end_index d in
    let time_slice := firstn e time in
    let signal_slice := firstn e signal in
    function_output d =
      match function
              (if pass_time_in_window
               then TimeAndSignal time_slice signal_slice
               else SignalOnly signal_slice) kwargs with
      | Returned value => value
      | Raised => None
      end /\
    (exists t, nth_error time e = Some t /\
               window_begin_time d <= t /\ t < window_end_time d) /\
    nth_error time_slice e = None /\
    nth_error signal_slice e = None /\
    (e = 0%nat ->
       window_begin_index d = 0%nat /\
       time_slice = [] /\ signal_slice = [] /\
       function_output d =
         match function
                 (if pass_time_in_window
                  then TimeAndSignal [] [] else SignalOnly []) kwargs with
         | Returned value => value
         | Raised => None
         end).
Proof.
  intros Hgen d Hd e time_slice signal_slice.
  destruct (emitted_output _ _ _ _ _ _ _ _ _ _ Hgen d Hd)
    as (Hout & Hb & He & Hrange).
  split; [exact Hout|].
  split; [now apply In_window_indices in He|].
  assert (Hcut : forall (A : Type) (l : list A), nth_error (firstn e l) e = None).
  { intros A l. rewrite nth_error_firstn, Nat.ltb_irrefl. reflexivity. }
  split; [apply Hcut|]. split; [apply Hcut|].
  intros He0. apply Hrange in Hb. split; [fold e in Hb; lia|].
  subst time_slice signal_slice.
  unfold window_content in Hout. fold e in Hout. rewrite He0 in *.
  simpl in *. auto.
Qed.

Lemma content_excludes_end_index_witness :
  let d := Descriptor 0 1 0 0 (Some (TimeAndSignal [] [])) in
  exists ds,
    moving_window [0; 1] [5; 6] 1 1 record_call true tt 1 None
      = Finished ds /\
    In d ds /\
    window_end_index d = 0%nat /\
    (exists t, nth_error [0; 1] 0 = Some t /\
               window_begin_time d <= t /\ t < window_end_time d) /\
    function_output d = Some (@TimeAndSignal Q [] []).
Proof.
  intros d. eexists. split; [vm_compute; reflexivity|].
  split; [left; reflexivity|]. split; [reflexivity|].
  pose proof (content_excludes_end_index [0; 1] [5; 6] 1 1 record_call true tt
                1 None _ eq_refl d (or_introl eq_refl)) as (_ & Hin & _ & _ & H0).
  split; [exact Hin|]. apply H0. reflexivity.
Defined.



(** *** Two functions over the same series *)

Section TwoRuns.

Context {V R K : Type}.
Variable time : list Q.
Variable signal : list V.
Variable window_length time_step : Q.
Variable function reference : call_args V -> K -> outcome R.
Variable pass_time_in_window : bool.
Variable kwargs : K.

Let same_window :=
  same_window time signal function reference pass_time_in_window kwargs.
Let same_iteration :=
  same_iteration time signal function reference pass_time_in_window kwargs.

Lemma window_yield_same (b e : Q) :
  same_iteration
    (Iteration b e (window_yield time signal function
                      pass_time_in_window kwargs b e))
    (Iteration b e (window_yield time signal reference
                      pass_time_in_window kwargs b e)).
Proof.
  unfold same_iteration, Window.same_iteration, window_yield; simpl.
  destruct (window_indices time b e) as [|first others]; [auto|].
  split; [reflexivity|]. split; [reflexivity|].
  unfold same_window, Window.same_window, geometry, call_function; simpl.
  split; [reflexivity|]. intros H. now rewrite H.
Qed.

Lemma window_loop_same (last_time : Q) : forall fuel b e its,
  window_loop time signal time_step function pass_time_in_window kwargs
    fuel last_time b e = Some its ->
  exists its',
    window_loop time signal time_step reference pass_time_in_window kwargs
      fuel last_time b e = Some its' /\
    Forall2 same_iteration its its'.
Proof.
  induction fuel as [|fuel IH]; intros b e its H; [discriminate|].
  simpl in *. destruct (Qltb e last_time).
  - destruct (window_loop _ _ _ function) as [rest|] eqn:Hrec; [|discriminate].
    injection H as <-. destruct (IH _ _ _ Hrec) as (rest' & -> & Hall).
    eexists. split; [reflexivity|].
    constructor; [apply window_yield_same | exact Hall].
  - injection H as <-. eexists. split; [reflexivity|].
    constructor; [apply window_yield_same | constructor].
Qed.

Lemma yields_same (its its' : list (iteration R)) :
  Forall2 same_iteration its its' ->
  Forall2 same_window (yields its) (yields its').
Proof.
  induction 1 as [|it it' its its' (_ & _ & Hy) _ IH]; [constructor|].
  unfold yields in *. simpl.
  destruct (yielded it), (yielded it'); try contradiction; simpl; auto.
Qed.

Lemma moving_window_same (fuel : nat) (time0 : option Q) ds :
  moving_window time signal window_length time_step function
    pass_time_in_window kwargs fuel time0 = Finished ds ->
  exists ds',
    moving_window time signal window_length time_step reference
      pass_time_in_window kwargs fuel time0 = Finished ds' /\
    Forall2 same_window ds ds'.
Proof.
  intros Hgen.
  apply moving_window_inv in Hgen as (its & Htrace & ->).
  apply moving_window_trace_inv in Htrace as (b & e & Hal & Hloop).
  apply window_loop_same in Hloop as (its' & Hloop' & Hall).
  exists (yields its'). split; [|now apply yields_same].
  unfold moving_window, moving_window_trace. rewrite Hal, Hloop'. reflexivity.
Qed.

End TwoRuns.

(** C6. An error raised by the function is caught where the call is made.
    In a run that finishes, every iteration whose index set is not empty
    yields a tuple, whatever the function does, with [None] as output where
    the call raised.  The run with any other function (one that never
    raises, say) finishes as well, tests the same windows and yields tuples
    with the same windows and positions in the same order, and with the same
    output for every window whose content the two functions treat alike: a
    raise changes the output of its own window only. *)
Theorem function_errors_are_contained {V R K : Type}
    (time : list Q) (signal : list V) (window_length time_step : Q)
    (function reference : call_args V -> K -> outcome R)
    (pass_time_in_window : bool) (kwargs : K) (fuel : nat)
    (time0 : option Q) (its : list (iteration R)) :
  moving_window_trace time signal window_length time_step function
    pass_time_in_window kwargs fuel time0 = Finished its ->
  moving_window time signal window_length time_step function
    pass_time_in_window kwargs fuel time0 = Finished (yields its) /\
  (forall it, In it its ->
     window_indices time (tested_begin it) (tested_end it) <> [] ->
     exists d,
       yielded it = Some d /\ In d (yields its) /\
       (function (window_content time signal pass_time_in_window
                    (window_end_index d)) kwargs = Raised ->
        function_output d = None)) /\
  exists its',
    moving_window_trace time signal window_length time_step reference
      pass_time_in_window kwargs fuel time0 = Finished its' /\
    moving_window time signal window_length time_step reference
      pass_time_in_window kwargs fuel time0 = Finished (yields its') /\
    Forall2 (same_iteration time signal function reference
               pass_time_in_window kwargs) its its' /\
    Forall2 (same_window time signal function reference
               pass_time_in_window kwargs) (yields its) (yields its').
Proof.
  intros Htrace.
  assert (Hgen : moving_window time signal window_length time_step function
            pass_time_in_window kwargs fuel time0 = Finished (yields its))
    by (unfold moving_window; now rewrite Htrace).
  split; [exact Hgen|]. split.
  - intros it Hit Hindices.
    pose proof Htrace as Hloop.
    apply moving_window_trace_inv in Hloop as (b & e & _ & Hloop).
    pose proof Hit as Hn. apply In_nth_error in Hn as [n Hn].
    destruct (window_loop_spec _ _ _ _ _ _ _ _ _ _ _ Hloop n it Hn)
      as (_ & _ & Hy & _).
    destruct (yielded it) as [d|] eqn:Hyield.
    + exists d. split; [reflexivity|].
      assert (Hd : In d (yields its)) by (apply In_yields; eauto).
      split; [exact Hd|]. intros Hraise.
      destruct (emitted_output _ _ _ _ _ _ _ _ _ _ Hgen d Hd) as [Hout _].
      now rewrite Hraise in Hout.
    + symmetry in Hy. apply window_yield_None in Hy. contradiction.
  - apply moving_window_trace_inv in Htrace as (b & e & Hal & Hloop).
    apply (window_loop_same _ _ _ _ reference) in Hloop as (its' & Hloop' & Hall).
    assert (Htrace' : moving_window_trace time signal window_length time_step
              reference pass_time_in_window kwargs fuel time0 = Finished its')
      by (unfold moving_window_trace; now rewrite Hal, Hloop').
    exists its'. split; [exact Htrace'|]. split.
    + unfold moving_window. now rewrite Htrace'.
    + split; [exact Hall | now apply yields_same].
Qed.

(** Scenario A with a function that raises in the window [[3,6)] only. *)
Lemma function_errors_are_contained_witness :
  let its :=
    [ Iteration 0 3 (Some (Descriptor 0 3 0 2 (Some (inl 3))));
      Iteration 3 6 (Some (Descriptor 3 6 3 3 None));
      Iteration 6 9 None;
      @Iteration (Q + list Q) 9 12
        (Some (Descriptor 9 12 4 5 (Some (inl 15)))) ] in
  moving_window_trace scenario_time scenario_signal 3 3 (sum_raising_on 3)
    false tt 4 (Some 0) = Finished its /\
  moving_window scenario_time scenario_signal 3 3 (sum_raising_on 3)
    false tt 4 (Some 0) =
  Finished [ Descriptor 0 3 0 2 (Some (inl 3));
             Descriptor 3 6 3 3 None;
             Descriptor 9 12 4 5 (Some (inl 15)) ] /\
  exists its',
    moving_window_trace scenario_time scenario_signal 3 3 python_sum
      false tt 4 (Some 0) = Finished its' /\
    Forall2 (same_window scenario_time scenario_signal (sum_raising_on 3)
               python_sum false tt) (yields its) (yields its').
Proof.
  intros its. split; [vm_compute; reflexivity|].
  destruct (function_errors_are_contained scenario_time scenario_signal 3 3
              (sum_raising_on 3) python_sum false tt 4 (Some 0) its eq_refl)
    as (Hgen & _ & its' & Htrace' & _ & _ & Hsame).
  split; [exact Hgen|]. exists its'. split; [exact Htrace' | exact Hsame].
Defined.

(** ** Termination *)

Local Open Scope float_scope.
#[local] Set Warnings "-inexact-float".

(** *** The order of binary64 numbers *)

Lemma SFcompare_antisym (x y : spec_float) (c : comparison) :
  SFcompare x y = Some c -> SFcompare y x = Some (CompOpp c).
Proof.
  destruct x as [sx|sx| |sx mx ex], y as [sy|sy| |sy my ey]; simpl;
    try discriminate;
    try (destruct sx); try (destruct sy); intros [= <-]; try reflexivity.
  - rewrite (Z.compare_antisym ex ey).
    destruct (ex ?= ey)%Z; simpl; try reflexivity.
    change (Pos.compare_cont Eq my mx) with (Pos.compare my mx).
    change (Pos.compare_cont Eq mx my) with (Pos.compare mx my).
    now rewrite (Pos.compare_antisym mx my), CompOpp_involutive.
  - rewrite (Z.compare_antisym ex ey).
    destruct (ex ?= ey)%Z; simpl; try reflexivity.
    change (Pos.compare_cont Eq my mx) with (Pos.compare my mx).
    change (Pos.compare_cont Eq mx my) with (Pos.compare mx my).
    now rewrite (Pos.compare_antisym mx my).
Qed.

Lemma SFcompare_refl (x : spec_float) :
  x <> S754_nan -> SFcompare x x = Some Eq.
Proof.
  destruct x as [s|s| |s m e]; simpl; intros Hx; try congruence.
  - now destruct s.
  - rewrite Z.compare_refl.
    change (Pos.compare_cont Eq m m) with (Pos.compare m m).
    rewrite Pos.compare_refl. now destruct s.
Qed.

(** [x < y] gives [x <= y]. *)
Lemma ltb_leb (x y : float) : (x <? y) = true -> (x <=? y) = true.
Proof.
  rewrite ltb_spec, leb_spec. unfold SFltb, SFleb.
  now destruct (SFcompare (Prim2SF x) (Prim2SF y)) as [[| |]|].
Qed.

(** [x < y] excludes [y < x]. *)
Lemma ltb_asym (x y : float) : (x <? y) = true -> (y <? x) = false.
Proof.
  rewrite !ltb_spec. unfold SFltb.
  destruct (SFcompare (Prim2SF x) (Prim2SF y)) as [c|] eqn:Hc; [|discriminate].
  rewrite (SFcompare_antisym _ _ _ Hc). now destruct c.
Qed.

(** A number that compares with another one is not NaN. *)
Lemma ltb_leb_refl (x y : float) : (x <? y) = true -> (x <=? x) = true.
Proof.
  rewrite ltb_spec, leb_spec. unfold SFltb, SFleb.
  destruct (Prim2SF x) eqn:Hx;
    try (rewrite SFcompare_refl; [reflexivity | discriminate]).
  simpl. discriminate.
Qed.

(** *** The loops over binary64 numbers *)

Lemma advanced_add (s : float) (n m : nat) (x : float) :
  Float64.advanced s (n + m) x = Float64.advanced s m (Float64.advanced s n x).
Proof.
  revert x. induction n as [|n IH]; intros x; [reflexivity|]. simpl. apply IH.
Qed.

Lemma advanced_S (s : float) (n : nat) (x : float) :
  Float64.advanced s (S n) x = Float64.advanced s n x + s.
Proof.
  replace (S n) with (n + 1)%nat by lia. now rewrite advanced_add.
Qed.

Lemma fast_forward64_more_fuel (first s : float) : forall fuel fuel' b e w,
  Float64.fast_forward fuel first s b e = Some w -> (fuel <= fuel')%nat ->
  Float64.fast_forward fuel' first s b e = Some w.
Proof.
  induction fuel as [|fuel IH]; intros fuel' b e w Hrun Hle; [discriminate|].
  destruct fuel' as [|fuel']; [lia|]. simpl in *.
  destruct (e <? first); [|exact Hrun].
  apply (IH fuel'); [exact Hrun | lia].
Qed.

Section Loop64.

Context {V R K : Type}.
Variable time : list float.
Variable signal : list V.
Variable time_step : float.
Variable function : Float64.call_args V -> K -> outcome R.
Variable pass_time_in_window : bool.
Variable kwargs : K.

Let loop := Float64.window_loop time signal time_step function
              pass_time_in_window kwargs.
Let yield_of := Float64.window_yield time signal function
                  pass_time_in_window kwargs.

Lemma window_loop64_nonempty (last_time : float) : forall fuel b e its,
  loop fuel last_time b e = Some its -> its <> [].
Proof.
  intros [|fuel] b e its Hrun; [discriminate|]. simpl in Hrun.
  destruct (e <? last_time); [|now injection Hrun as <-].
  destruct (loop fuel _ _ _); [|discriminate]. now injection Hrun as <-.
Qed.

(** What the iterations of a finished main loop are. *)
Lemma window_loop64_spec (last_time : float) : forall fuel b e its,
  loop fuel last_time b e = Some its ->
  forall n it, nth_error its n = Some it ->
    Float64.tested_begin it = Float64.advanced time_step n b /\
    Float64.tested_end it = Float64.advanced time_step n e /\
    Float64.yielded it
      = yield_of (Float64.tested_begin it) (Float64.tested_end it) /\
    ((S n < length its)%nat -> (Float64.tested_end it <? last_time) = true) /\
    ((S n = length its)%nat -> (Float64.tested_end it <? last_time) = false).
Proof.
  induction fuel as [|fuel IH]; intros b e its Hrun n it Hn; [discriminate|].
  simpl in Hrun. destruct (e <? last_time) eqn:Hgo.
  - destruct (loop fuel last_time (b + time_step) (e + time_step))
      as [later|] eqn:Hlater; [|discriminate].
    injection Hrun as <-. destruct n as [|n].
    + injection Hn as <-. simpl. repeat split; auto.
      intros Hlen. apply window_loop64_nonempty in Hlater.
      destruct later; [congruence | discriminate].
    + destruct (IH _ _ _ Hlater n it Hn) as (Hb & He & Hy & Hbefore & Hfinal).
      simpl. repeat split; auto.
      * intros Hlen. apply Hbefore. lia.
  - injection Hrun as <-. destruct n as [|[|n]]; [|discriminate|discriminate].
    injection Hn as <-. simpl. repeat split; auto. lia.
Qed.

(** Once [n] steps take the end of the window past [last_time], the loop is
    over after at most [n + 1] iterations. *)
Lemma window_loop64_reaches (last_time : float) : forall n b e,
  (last_time <? Float64.advanced time_step n e) = true ->
  exists its, (length its <= n + 1)%nat /\
    forall fuel, (n < fuel)%nat -> loop fuel last_time b e = Some its.
Proof.
  induction n as [|n IH]; intros b e Hpast.
  - simpl in Hpast. apply ltb_asym in Hpast.
    exists [Float64.Iteration b e (yield_of b e)]. split; [simpl; lia|].
    intros [|fuel] Hfuel; [lia|]. simpl. now rewrite Hpast.
  - destruct (e <? last_time) eqn:Hgo.
    + destruct (IH (b + time_step) (e + time_step) Hpast) as (its & Hlen & Hrun).
      exists (Float64.Iteration b e (yield_of b e) :: its). split; [simpl; lia|].
      intros [|fuel] Hfuel; [lia|]. simpl. rewrite Hgo.
      rewrite Hrun by lia. reflexivity.
    + exists [Float64.Iteration b e (yield_of b e)]. split; [simpl; lia|].
      intros [|fuel] Hfuel; [lia|]. simpl. now rewrite Hgo.
Qed.

(** A window that the step does not move, and that ends before
    [last_time], is tested for ever. *)
Lemma window_loop64_stuck (last_time b e : float) :
  b + time_step = b -> e + time_step = e -> (e <? last_time) = true ->
  forall fuel, loop fuel last_time b e = None.
Proof.
  intros Hb He Hgo. induction fuel as [|fuel IH]; [reflexivity|].
  simpl. rewrite Hgo, Hb, He, IH. reflexivity.
Qed.

Lemma yields64_length (its : list (Float64.iteration R)) :
  (length (Float64.yields its) <= length its)%nat.
Proof.
  induction its as [|it its IH]; [simpl; lia|].
  change (Float64.yields (it :: its))
    with (match Float64.yielded it with Some d => [d] | None => [] end
          ++ Float64.yields its).
  rewrite length_app. destruct (Float64.yielded it); simpl; lia.
Qed.

End Loop64.

(** A run whose aligned window the step does not move, and which ends
    before the last time point, never ends. *)
Lemma absorbed_step_never_ends {V R K : Type}
    (time : list float) (signal : list V) (window_length time_step : float)
    (function : Float64.call_args V -> K -> outcome R)
    (pass_time_in_window : bool) (kwargs : K) (time0 : option float)
    (b e : float) :
  Float64.aligned_window time window_length time_step 1 time0 = Finished (b, e) ->
  b + time_step = b -> e + time_step = e -> (e <? last time 0) = true ->
  forall fuel,
    Float64.moving_window_trace time signal window_length time_step function
      pass_time_in_window kwargs fuel time0 = OutOfFuel.
Proof.
  intros Hal Hb He Hgo fuel.
  unfold Float64.moving_window_trace, Float64.aligned_window in *.
  destruct time as [|first rest]; [discriminate|].
  destruct (Float64.fast_forward 1 _ _ _ _) as [w|] eqn:Hff; [|discriminate].
  injection Hal as ->.
  destruct fuel as [|fuel]; [reflexivity|].
  rewrite (fast_forward64_more_fuel _ _ _ (S fuel) _ _ _ Hff) by lia.
  now rewrite window_loop64_stuck.
Qed.


(** Once [k] steps bring the end of the window up to [first], the
    fast-forward is over after at most [k] steps. *)
Lemma fast_forward64_reaches (first s : float) : forall k b e,
  (Float64.advanced s k e <? first) = false ->
  exists j, (j <= k)%nat /\
    forall fuel, (k < fuel)%nat ->
      Float64.fast_forward fuel first s b e
        = Some (Float64.advanced s j b, Float64.advanced s j e).
Proof.
  induction k as [|k IH]; intros b e Hup.
  - exists 0%nat. split; [lia|]. intros [|fuel] Hfuel; [lia|].
    simpl in *. now rewrite Hup.
  - destruct (e <? first) eqn:Hgo.
    + destruct (IH (b + s) (e + s) Hup) as (j & Hj & Hrun).
      exists (S j). split; [lia|]. intros [|fuel] Hfuel; [lia|].
      simpl. rewrite Hgo. apply Hrun. lia.
    + exists 0%nat. split; [lia|]. intros [|fuel] Hfuel; [lia|].
      simpl. now rewrite Hgo.
Qed.

(** C4 (as amended).  The generator stops once its window has moved past
    the last time point.  When [k] additions of the step bring the end of
    the window [[time0, time0 + window_length)] up to [time[0]], the
    fast-forward is over after at most [k] of them.  When the fast-forward
    has come out with a window [[b, e)] and [n] additions of the step take
    [e] beyond [time[-1]], the run is over after at most [n + 1] passes
    through the loop body, and at least one, whatever fuel is added.  A
    finished run yields at most one tuple per pass; its last pass tested a
    window that does not end before [time[-1]], and every earlier pass a
    window that ends at or before [time[-1]].  The additions are those of
    binary64 numbers: nothing is said of a run whose window never gets past
    [time[-1]]. *)
Theorem finished_runs_and_their_cycles {V R K : Type}
    (time : list float) (signal : list V) (window_length time_step : float)
    (function : Float64.call_args V -> K -> outcome R)
    (pass_time_in_window : bool) (kwargs : K) (time0 : option float) :
  let last_time := last time 0 in
  let aligned := Float64.aligned_window time window_length time_step in
  let trace := Float64.moving_window_trace time signal window_length time_step
                 function pass_time_in_window kwargs in
  let generator := Float64.moving_window time signal window_length time_step
                     function pass_time_in_window kwargs in
  (forall first rest k,
     time = first :: rest ->
     let origin := Float64.origin_of first time0 in
     (Float64.advanced time_step k (origin + window_length) <? first) = false ->
     exists j, (j <= k)%nat /\
       forall fuel, (k < fuel)%nat ->
         aligned fuel time0
           = Finished (Float64.advanced time_step j origin,
                       Float64.advanced time_step j (origin + window_length))) /\
  (forall fuel b e n,
     aligned fuel time0 = Finished (b, e) ->
     (last_time <? Float64.advanced time_step n e) = true ->
     exists its,
       (1 <= length its <= n + 1)%nat /\
       forall fuel', (fuel + n < fuel')%nat -> trace fuel' time0 = Finished its) /\
  (forall fuel its, trace fuel time0 = Finished its ->
     generator fuel time0 = Finished (Float64.yields its) /\
     (length (Float64.yields its) <= length its)%nat /\
     exists earlier final,
       its = (earlier ++ [final])%list /\
       Forall (fun it => (Float64.tested_end it <=? last_time) = true) earlier /\
       (Float64.tested_end final <? last_time) = false).
Proof.
  intros last_time aligned trace generator. split; [|split].
  - intros first rest k Htime origin Hup.
    destruct (fast_forward64_reaches first time_step k origin
                (origin + window_length) Hup) as (j & Hj & Hrun).
    exists j. split; [exact Hj|]. intros fuel Hfuel.
    unfold aligned, Float64.aligned_window. rewrite Htime. fold origin.
    now rewrite Hrun.
  - intros fuel b e n Hal Hpast.
    destruct (window_loop64_reaches time signal time_step function
                pass_time_in_window kwargs last_time n b e Hpast)
      as (its & Hlen & Hrun).
    exists its. split.
    + split; [|exact Hlen].
      specialize (Hrun (S n) ltac:(lia)).
      apply window_loop64_nonempty in Hrun. destruct its; [congruence|simpl; lia].
    + intros fuel' Hfuel. unfold trace, Float64.moving_window_trace.
      assert (Hal' : Float64.aligned_window time window_length time_step fuel' time0
                     = Finished (b, e)).
      { unfold aligned, Float64.aligned_window in *. destruct time as [|first rest];
          [discriminate|].
        destruct Float64.fast_forward as [w|] eqn:Hff; [|discriminate].
        injection Hal as ->.
        rewrite (fast_forward64_more_fuel _ _ _ fuel' _ _ _ Hff) by lia.
        reflexivity. }
      rewrite Hal'. fold last_time. rewrite Hrun by lia. reflexivity.
  - intros fuel its Htrace.
    split; [unfold generator, Float64.moving_window; fold trace; now rewrite Htrace|].
    split; [apply yields64_length|].
    unfold trace, Float64.moving_window_trace in Htrace.
    destruct Float64.aligned_window as [[b e]| |]; try discriminate.
    destruct Float64.window_loop as [its'|] eqn:Hloop; [|discriminate].
    injection Htrace as ->.
    pose proof (window_loop64_spec _ _ _ _ _ _ _ _ _ _ _ Hloop) as Hspec.
    pose proof (window_loop64_nonempty _ _ _ _ _ _ _ _ _ _ _ Hloop) as Hne.
    destruct (exists_last Hne) as (earlier & final & ->).
    exists earlier, final. split; [reflexivity|]. split.
    + apply Forall_forall. intros it Hit.
      apply In_nth_error in Hit as [n Hn].
      assert (n < length earlier)%nat by (apply nth_error_Some; congruence).
      destruct (Hspec n it) as (_ & _ & _ & Hgo & _).
      * rewrite nth_error_app1 by assumption. exact Hn.
      * apply ltb_leb, Hgo. rewrite length_app. simpl. lia.
    + destruct (Hspec (length earlier) final) as (_ & _ & _ & _ & Hstop).
      * rewrite nth_error_app2, Nat.sub_diag by lia. reflexivity.
      * apply Hstop. rewrite length_app. simpl. lia.
Qed.

(** Scenario A from the origin -7, over binary64 numbers: three steps bring
    the end of the window [[-7, -4)] up to the first time point, so the
    fast-forward takes at most three (it takes two, and comes out with
    [[-1, 2)]); four more steps take the end of that window past the last
    time point, 12, so the run is over within five passes. *)
Lemma finished_runs_and_their_cycles_witness :
  let time := [0; 1; 2; 3; 10; 11; 12] in
  let signal := [1; 2; 3; 4; 5; 6; 7]%nat in
  (Float64.advanced 3 3 (-7 + 3) <? 0) = false /\
  (exists j, (j <= 3)%nat /\
     forall fuel, (3 < fuel)%nat ->
       Float64.aligned_window time 3 3 fuel (Some (-7))
         = Finished (Float64.advanced 3 j (-7), Float64.advanced 3 j (-7 + 3))) /\
  Float64.aligned_window time 3 3 4 (Some (-7)) = Finished (-1, 2) /\
  (12 <? Float64.advanced 3 4 2) = true /\
  exists its,
    (1 <= length its <= 4 + 1)%nat /\
    forall fuel', (4 + 4 < fuel')%nat ->
      Float64.moving_window_trace time signal 3 3 Float64.python_len false tt
        fuel' (Some (-7)) = Finished its.
Proof.
  intros time signal.
  destruct (finished_runs_and_their_cycles time signal 3 3 Float64.python_len
              false tt (Some (-7))) as (Halign & Hreach & _).
  split; [vm_compute; reflexivity|]. split.
  - apply (Halign 0 [1; 2; 3; 10; 11; 12] 3%nat eq_refl).
    vm_compute. reflexivity.
  - split; [vm_compute; reflexivity|]. split; [vm_compute; reflexivity|].
    apply (Hreach 4%nat (-1) 2 4%nat); vm_compute; reflexivity.
Defined.

(** C4 as written fails in three ways.  Over the time points 1e16 and
    1e16 + 2, with length 1 and step 1, both additions are absorbed
    (1e16 + 1 rounds to 1e16): the window stays [[1e16, 1e16)], ends before
    the last time point for ever, and the run does not end.  Over 1e16 and
    1e16 + 20 with length and step 2.5, each addition is rounded down to 2:
    the run takes 10 passes, one more than ceil(20 / 2.5) + 1 = 9.  And over
    the single time point 0 with origin 5, length 1 and step 1, the one pass
    that every run makes is more than ceil((0 - 5) / 1) + 1 = -4. *)
Lemma absorbed_step_counterexample :
  (let time := [1e16; 10000000000000002] in
   Float64.ascending time = true /\ (1 <= length time)%nat /\
   (0 <? 1) = true /\
   forall fuel,
     Float64.moving_window_trace time [1; 2]%nat 1 1 Float64.python_len false tt
       fuel None = OutOfFuel /\
     Float64.moving_window time [1; 2]%nat 1 1 Float64.python_len false tt
       fuel None = OutOfFuel) /\
  (let time := [1e16; 10000000000000020] in
   Float64.ascending time = true /\ (0 <? 2.5) = true /\
   Float64.aligned_window time 2.5 2.5 10 None
     = Finished (1e16, 10000000000000002) /\
   (exists its,
      Float64.moving_window_trace time [1; 2]%nat 2.5 2.5 Float64.python_len
        false tt 10 None = Finished its /\
      length its = 10%nat) /\
   (Qceiling ((Float64.value (last time 0%float) - Float64.value 1e16%float)
              / Float64.value 2.5%float)%Q + 1 = 9)%Z) /\
  (Float64.aligned_window [0] 1 1 1 (Some 5) = Finished (5, 6) /\
   Float64.moving_window_trace [0] [1%nat] 1 1 Float64.python_len false tt
     1 (Some 5) = Finished [Float64.Iteration 5 6 None] /\
   (Qceiling ((Float64.value (last [0%float] 0%float) - Float64.value 5%float)
              / Float64.value 1%float)%Q + 1 = -4)%Z).
Proof.
  split; [|split].
  - intros time. split; [reflexivity|]. split; [simpl; lia|].
    split; [reflexivity|]. intros fuel.
    assert (Hrun : Float64.moving_window_trace time [1; 2]%nat 1 1
                     Float64.python_len false tt fuel None = OutOfFuel).
    { apply (absorbed_step_never_ends time [1; 2]%nat 1 1 Float64.python_len
               false tt None 1e16 1e16); vm_compute; reflexivity. }
    split; [exact Hrun|]. unfold Float64.moving_window. now rewrite Hrun.
  - intros time. split; [reflexivity|]. split; [reflexivity|].
    split; [vm_compute; reflexivity|]. split; [|vm_compute; reflexivity].
    eexists. split; [vm_compute; reflexivity | reflexivity].
  - split; [vm_compute; reflexivity|]. split; vm_compute; reflexivity.
Qed.

Local Close Scope float_scope.

(** What rounding takes away.  Were every addition exact, a positive step
    would end every run over a non-empty series: with enough fuel both loops
    finish, always with the same result, the loop stops with the first
    window that ends at or after [time[-1]], and the number of iterations is
    at most [max(0, ceil((time[-1] - aligned_origin) / time_step)) + 1].
    This is a statement about [Window], the engine over exact rationals. *)
Theorem moving_window_terminates_within_bound {V R K : Type}
    (time : list Q) (signal : list V) (window_length time_step : Q)
    (function : call_args V -> K -> outcome R) (pass_time_in_window : bool)
    (kwargs : K) (time0 : option Q) :
  (1 <= length time)%nat -> 0 < window_length -> 0 < time_step ->
  exists fuel aligned_origin aligned_end its,
    (forall fuel', (fuel <= fuel')%nat ->
       aligned_window time window_length time_step fuel' time0
         = Finished (aligned_origin, aligned_end) /\
       moving_window_trace time signal window_length time_step function
         pass_time_in_window kwargs fuel' time0 = Finished its /\
       moving_window time signal window_length time_step function
         pass_time_in_window kwargs fuel' time0 = Finished (yields its)) /\
    (exists before final,
       its = before ++ [final] /\
       Forall (fun it => tested_end it < last time 0) before /\
       last time 0 <= tested_end final) /\
    (Z.of_nat (length its) <=
       Z.max 0 (Qceiling ((last time 0%Q - aligned_origin) / time_step)) + 1)%Z /\
    (length (yields its) <= length its)%nat.
Proof.
  intros Hlen Hlength Hstep.
  assert (Hne : time <> []) by (destruct time; [simpl in Hlen; lia | discriminate]).
  destruct (moving_window_trace_terminates time signal window_length time_step
              function pass_time_in_window kwargs time0 Hne Hstep)
    as (fuel & b & e & its & Hrun).
  exists fuel, b, e, its. split; [exact Hrun|].
  destruct (Hrun fuel (Nat.le_refl _)) as (Hal & Htrace & _).
  apply moving_window_trace_inv in Htrace as (b' & e' & Hal' & Hloop).
  rewrite Hal in Hal'. injection Hal' as <- <-.
  pose proof (window_loop_spec _ _ _ _ _ _ _ _ _ _ _ Hloop) as Hspec.
  pose proof (window_loop_nonempty _ _ _ _ _ _ _ _ _ _ _ Hloop) as Hnonempty.
  split; [|split; [|apply yields_length]].
  - destruct (exists_last Hnonempty) as (before & final & ->).
    exists before, final. split; [reflexivity|]. split.
    + apply Forall_forall. intros it Hit.
      apply In_nth_error in Hit as [n Hn].
      assert (n < length before)%nat
        by (apply nth_error_Some; congruence).
      destruct (Hspec n it) as (_ & _ & _ & Hgo & _).
      * rewrite nth_error_app1 by assumption. exact Hn.
      * apply Hgo. rewrite length_app. simpl. lia.
    + destruct (Hspec (length before) final) as (_ & _ & _ & _ & Hstop).
      * rewrite nth_error_app2, Nat.sub_diag by lia. reflexivity.
      * apply Hstop. rewrite length_app. simpl. lia.
  - destruct (Nat.le_gt_cases (length its) 1) as [Hshort | Hlong]; [lia|].
    (* the iteration before the last one still ended before time[-1] *)
    set (n := (length its - 2)%nat).
    destruct (nth_error its n) as [it|] eqn:Hn;
      [|apply nth_error_None in Hn; lia].
    destruct (Hspec n it Hn) as (_ & He & _ & Hgo & _).
    specialize (Hgo ltac:(lia)).
    pose proof (aligned_window_length _ _ _ _ _ _ _ Hal) as Hwidth.
    assert (Hoff : inject_Z (Z.of_nat n) * time_step < last time 0 - b).
    { unfold offset in He. rewrite He, Hwidth in Hgo. lra. }
    apply Qlt_shift_div_l in Hoff; [|exact Hstep].
    assert (Hceil : inject_Z (Z.of_nat n) <
                    inject_Z (Qceiling ((last time 0 - b) / time_step)))
      by (eapply Qlt_le_trans; [exact Hoff | apply Qle_ceiling]).
    rewrite <- Zlt_Qlt in Hceil. lia.
Qed.

(** *** The order of the yielded tuples *)

Section Order.

Context {V R K : Type}.
Variable time : list Q.
Variable signal : list V.
Variable time_step : Q.
Variable function : call_args V -> K -> outcome R.
Variable pass_time_in_window : bool.
Variable kwargs : K.

Let yield_of := window_yield time signal function pass_time_in_window kwargs.

Hypothesis time_ascending : ascending time = true.
Hypothesis step_positive : 0 < time_step.

(** Iterations that test a window moving by one step each yield tuples in
    order. *)
Lemma yields_in_order : forall (its : list (iteration R)) (b e : Q),
  (forall n it, nth_error its n = Some it ->
     tested_begin it == b + offset time_step n /\
     tested_end it == e + offset time_step n /\
     yielded it = yield_of (tested_begin it) (tested_end it)) ->
  Sorted (successive time_step) (yields its) /\
  forall d, In d (yields its) ->
    exists n, window_begin_time d == b + offset time_step n /\
              window_end_time d == e + offset time_step n /\
              yield_of (window_begin_time d) (window_end_time d) = Some d.
Proof.
  induction its as [|it its IH]; intros b e Hspec.
  - split; [constructor | intros d []].
  - destruct (IH (b + time_step) (e + time_step)) as [Hsorted Hlater].
    { intros n it' Hn. destruct (Hspec (S n) it' Hn) as (Hb & He & Hy).
      rewrite offset_S in Hb, He. repeat split; [| |exact Hy].
      - rewrite Hb. ring.
      - rewrite He. ring. }
    destruct (Hspec 0%nat it eq_refl) as (Hb0 & He0 & Hy0).
    rewrite offset_0 in Hb0, He0.
    assert (Hshift : forall d, In d (yields its) ->
              exists n, window_begin_time d == b + offset time_step (S n) /\
                        window_end_time d == e + offset time_step (S n) /\
                        yield_of (window_begin_time d) (window_end_time d)
                          = Some d).
    { intros d Hd. destruct (Hlater d Hd) as (n & Hb & He & Hy).
      exists n. rewrite offset_S. repeat split; [| |exact Hy].
      - rewrite Hb. ring.
      - rewrite He. ring. }
    change (yields (it :: its))
      with (match yielded it with Some d => [d] | None => [] end ++ yields its).
    destruct (yielded it) as [d0|] eqn:Hyield; simpl.
    + symmetry in Hy0.
      pose proof (window_yield_Some _ _ _ _ _ _ _ _ Hy0) as (Hdb & Hde & _).
      assert (Hself : yield_of (window_begin_time d0) (window_end_time d0)
                      = Some d0) by (now rewrite Hdb, Hde).
      split.
      * constructor; [exact Hsorted|].
        destruct (yields its) as [|d1 rest]; constructor.
        destruct (Hshift d1 (or_introl eq_refl)) as (n & Hb1 & He1 & Hy1).
        pose proof (offset_pos time_step (S n) step_positive ltac:(lia)) as Hpos.
        assert (Hbb : window_begin_time d1 ==
                      window_begin_time d0 + offset time_step (S n))
          by (rewrite Hb1, Hdb, Hb0; ring).
        assert (Hee : window_end_time d1 ==
                      window_end_time d0 + offset time_step (S n))
          by (rewrite He1, Hde, He0; ring).
        split; [exists (S n); split; [lia | exact Hbb]|].
        split; [lra|].
        apply (window_yield_monotone time signal function pass_time_in_window
                 kwargs (window_begin_time d0) (window_end_time d0)
                 (window_begin_time d1) (window_end_time d1));
          try assumption; lra.
      * intros d [<- | Hd].
        -- exists 0%nat. rewrite offset_0, Hdb, Hde.
           split; [rewrite Hb0; ring|]. split; [rewrite He0; ring|].
           now rewrite <- Hdb, <- Hde.
        -- destruct (Hshift d Hd) as (n & Hn). eauto.
    + split; [exact Hsorted|]. intros d Hd.
      destruct (Hshift d Hd) as (n & Hn). eauto.
Qed.

End Order.

Lemma Sorted_strengthen {A : Type} (Rel Rel' : A -> A -> Prop) (P : A -> Prop)
    (l : list A) :
  (forall x y, Rel x y -> P x -> P y -> Rel' x y) ->
  Sorted Rel l -> Forall P l -> Sorted Rel' l.
Proof.
  intros Himpl Hsorted. induction Hsorted as [|x l Hl IH Hhd]; intros Hall;
    [constructor|].
  inversion Hall as [|? ? Hx Hrest]; subst.
  constructor; [now apply IH|].
  destruct Hhd as [|y l' Hxy]; constructor.
  inversion Hrest; subst. now apply Himpl.
Qed.

(** With exact additions the tuples of one run over a sorted series, the
    step being positive, come at a whole number of steps from each other:
    from each to the next [window_begin_time] grows by a positive number of
    steps, neither index decreases, and each window has the window length.
    This is a statement about [Window], the engine over exact rationals. *)
Theorem emitted_windows_are_ordered {V R K : Type}
    (time : list Q) (signal : list V) (window_length time_step : Q)
    (function : call_args V -> K -> outcome R) (pass_time_in_window : bool)
    (kwargs : K) (fuel : nat) (time0 : option Q) (ds : list (descriptor R)) :
  ascending time = true -> (1 <= length time)%nat -> 0 < time_step ->
  moving_window time signal window_length time_step function
    pass_time_in_window kwargs fuel time0 = Finished ds ->
  Sorted (successive time_step) ds /\
  Forall (fun d => window_end_time d - window_begin_time d == window_length) ds.
Proof.
  intros Hasc _ Hstep Hgen. split.
  - apply moving_window_inv in Hgen as (its & Htrace & ->).
    apply moving_window_trace_inv in Htrace as (b & e & _ & Hloop).
    apply (yields_in_order time signal time_step function pass_time_in_window
             kwargs Hasc Hstep its b e).
    intros n it Hn.
    destruct (window_loop_spec _ _ _ _ _ _ _ _ _ _ _ Hloop n it Hn)
      as (Hb & He & Hy & _).
    auto.
  - apply Forall_forall. intros d Hd.
    destruct (emitted_inv _ _ _ _ _ _ _ _ _ _ Hgen d Hd)
      as (_ & b & e & n & Hal & Hb & He).
    apply aligned_window_length in Hal. rewrite Hb, He, Hal. ring.
Qed.

(** C10 (as amended).  Over a series sorted ascending and with a positive
    step, the tuples of one run come in order: from each tuple to the next,
    neither [window_begin_time] nor [window_end_time] decreases, and neither
    [window_begin_index] nor [window_end_index] decreases. *)
Theorem emitted_windows_never_go_back {V R K : Type}
    (time : list Q) (signal : list V) (window_length time_step : Q)
    (function : call_args V -> K -> outcome R) (pass_time_in_window : bool)
    (kwargs : K) (fuel : nat) (time0 : option Q) (ds : list (descriptor R)) :
  ascending time = true -> (1 <= length time)%nat -> 0 < time_step ->
  moving_window time signal window_length time_step function
    pass_time_in_window kwargs fuel time0 = Finished ds ->
  Sorted (fun d1 d2 =>
            window_begin_time d1 <= window_begin_time d2 /\
            window_end_time d1 <= window_end_time d2 /\
            (window_begin_index d1 <= window_begin_index d2)%nat /\
            (window_end_index d1 <= window_end_index d2)%nat) ds.
Proof.
  intros Hasc Hlen Hstep Hgen.
  destruct (emitted_windows_are_ordered time signal window_length time_step
              function pass_time_in_window kwargs fuel time0 ds Hasc Hlen Hstep
              Hgen) as [Hsorted Hwidth].
  apply (Sorted_strengthen (successive time_step) _
           (fun d => window_end_time d - window_begin_time d == window_length));
    [|exact Hsorted | exact Hwidth].
  intros d1 d2 (_ & Hlt & Hbi & Hei) H1 H2.
  split; [lra|]. split; [lra|]. split; assumption.
Qed.

Lemma emitted_windows_never_go_back_witness :
  moving_window scenario_time scenario_signal 3 3 python_sum false tt
    4 (Some 0) =
  Finished [ Descriptor 0 3 0 2 (Some (inl 3));
             Descriptor 3 6 3 3 (Some (inl 6));
             Descriptor 9 12 4 5 (Some (inl 15)) ] /\
  Sorted (fun d1 d2 =>
            window_begin_time d1 <= window_begin_time d2 /\
            window_end_time d1 <= window_end_time d2 /\
            (window_begin_index d1 <= window_begin_index d2)%nat /\
            (window_end_index d1 <= window_end_index d2)%nat)
    [ Descriptor 0 3 0 2 (Some (inl 3));
      Descriptor 3 6 3 3 (Some (inl 6));
      @Descriptor (Q + list Q) 9 12 4 5 (Some (inl 15)) ].
Proof.
  split; [vm_compute; reflexivity|].
  apply (emitted_windows_never_go_back scenario_time scenario_signal 3 3
           python_sum false tt 4 (Some 0)).
  - reflexivity.
  - simpl. lia.
  - reflexivity.
  - vm_compute. reflexivity.
Defined.

Local Open Scope float_scope.

(** C10 as written fails once the additions round.  Over the time points
    0, 0.1, 0.2 and 0.25 with length and step 0.1 the third window is
    [[0.2, 0.30000000000000004)]: its end minus its begin is not the window
    length.  Over 0, 1, 2, 3 with origin -1e16, length 1e16 and step 1, the
    step is absorbed by the begin of the window and not by its end: the
    three tuples have the same begin time, which does not increase, and
    the first window already is longer than the window length. *)
Lemma rounded_windows_counterexample :
  (let time := [0; 0.1; 0.2; 0.25] in
   Float64.ascending time = true /\ (0 <? 0.1) = true /\
   Float64.moving_window time [1; 2; 3; 4]%nat 0.1 0.1 Float64.python_len
     false tt 3 None =
   Finished [ Float64.Descriptor 0 0.1 0 0 (Some 0%nat);
              Float64.Descriptor 0.1 0.2 1 1 (Some 1%nat);
              Float64.Descriptor 0.2 0.30000000000000004 2 3 (Some 3%nat) ] /\
   (0.30000000000000004 - 0.2 =? 0.1) = false /\
   ~ (Float64.value 0.30000000000000004 - Float64.value 0.2
      == Float64.value 0.1)%Q) /\
  (let time := [0; 1; 2; 3] in
   Float64.ascending time = true /\ (0 <? 1) = true /\
   Float64.moving_window time [1; 2; 3; 4]%nat 1e16 1 Float64.python_len
     false tt 4 (Some (-1e16)) =
   Finished [ Float64.Descriptor (-1e16) 1 0 0 (Some 0%nat);
              Float64.Descriptor (-1e16) 2 0 1 (Some 1%nat);
              Float64.Descriptor (-1e16) 3 0 2 (Some 2%nat) ] /\
   (-1e16 <? -1e16) = false /\
   ~ (Float64.value 1 - Float64.value (-1e16) == Float64.value 1e16)%Q).
Proof.
  split.
  - intros time. split; [reflexivity|]. split; [reflexivity|].
    split; [vm_compute; reflexivity|]. split; [vm_compute; reflexivity|].
    vm_compute. discriminate.
  - intros time. split; [reflexivity|]. split; [reflexivity|].
    split; [vm_compute; reflexivity|]. split; [vm_compute; reflexivity|].
    vm_compute. discriminate.
Qed.

Local Close Scope float_scope.

(** ** Further properties of the window engine *)

Lemma offset_le (s : Q) (n m : nat) :
  0 <= s -> (n <= m)%nat -> offset s n <= offset s m.
Proof.
  intros Hs Hnm. unfold offset.
  apply Qmult_le_compat_r; [|exact Hs].
  rewrite <- Zle_Qle. lia.
Qed.

(** *** A step that is zero or negative *)





(** *** Which samples the windows reach *)

Local Open Scope float_scope.

(** Without an origin, and when [time[0] + window_length] as computed is
    greater than [time[0]], the first window is
    [[time[0], time[0] + window_length)]: it is not moved, it holds the first
    sample, and so every finished run yields a first tuple for it, with
    begin index 0. *)
Theorem default_origin_first_window {V R K : Type}
    (time : list float) (signal : list V) (window_length time_step : float)
    (function : Float64.call_args V -> K -> outcome R)
    (pass_time_in_window : bool) (kwargs : K) (fuel : nat) (first : float)
    (rest : list float) (ds : list (Float64.descriptor R)) :
  time = first :: rest -> (first <? first + window_length) = true ->
  Float64.moving_window time signal window_length time_step function
    pass_time_in_window kwargs fuel None = Finished ds ->
  exists d later,
    ds = d :: later /\
    Float64.window_begin_time d = first /\
    Float64.window_end_time d = first + window_length /\
    Float64.window_begin_index d = 0%nat.
Proof.
  intros Htime Hwide Hgen.
  unfold Float64.moving_window, Float64.moving_window_trace,
    Float64.aligned_window in Hgen.
  rewrite Htime in Hgen. simpl Float64.origin_of in Hgen.
  destruct fuel as [|fuel]; [discriminate|].
  cbn [Float64.fast_forward] in Hgen.
  rewrite (ltb_asym _ _ Hwide) in Hgen.
  cbn [Float64.window_loop] in Hgen.
  assert (Hyield : exists end_index output,
            Float64.window_yield (first :: rest) signal function
              pass_time_in_window kwargs first (first + window_length)
            = Some (Float64.Descriptor first (first + window_length) 0
                      end_index output)).
  { unfold Float64.window_yield, Float64.window_indices, where_.
    cbn [map where_from]. unfold Float64.in_window at 1.
    rewrite (ltb_leb_refl _ _ Hwide), Hwide. simpl. eauto. }
  destruct Hyield as (end_index & output & Hyield). rewrite Hyield in Hgen.
  destruct (first + window_length <? last (first :: rest) 0).
  - destruct Float64.window_loop as [later|]; [|discriminate].
    injection Hgen as <-. simpl. eauto 6.
  - injection Hgen as <-. simpl. eauto 6.
Qed.

(** A window length that the first time point absorbs leaves the first
    window empty: over the single time point 1e16 with length 1 the run
    yields nothing. *)
Example absorbed_length_first_window :
  (1e16 <? 1e16 + 1) = false /\
  Float64.moving_window [1e16] [1%nat] 1 1 Float64.python_len false tt 1 None
    = Finished [].
Proof. split; vm_compute; reflexivity. Qed.

(** The run over 0, 0.1, 0.2, 0.25 with length and step 0.1. *)
Lemma default_origin_first_window_witness :
  exists d later,
    [ Float64.Descriptor 0 0.1 0 0 (Some 0%nat);
      Float64.Descriptor 0.1 0.2 1 1 (Some 1%nat);
      Float64.Descriptor 0.2 0.30000000000000004 2 3 (Some 3%nat) ] = d :: later /\
    Float64.window_begin_time d = 0 /\
    Float64.window_end_time d = 0 + 0.1 /\
    Float64.window_begin_index d = 0%nat.
Proof.
  apply (default_origin_first_window [0; 0.1; 0.2; 0.25] [1; 2; 3; 4]%nat
           0.1 0.1 Float64.python_len false tt 3 0 [0.1; 0.2; 0.25]).
  - reflexivity.
  - vm_compute. reflexivity.
  - vm_compute. reflexivity.
Defined.

Local Close Scope float_scope.

Lemma nth_error_last {A : Type} (l : list A) (d : A) :
  l <> [] -> nth_error l (length l - 1) = Some (last l d).
Proof.
  induction l as [|x l IH]; [congruence|]. intros _.
  destruct l as [|y l]; [reflexivity|].
  change (last (x :: y :: l) d) with (last (y :: l) d).
  rewrite <- IH by discriminate. simpl. now rewrite Nat.sub_0_r.
Qed.

Section Reach.

Context {V R K : Type}.
Variable time : list Q.
Variable signal : list V.
Variable window_length time_step : Q.
Variable function : call_args V -> K -> outcome R.
Variable pass_time_in_window : bool.
Variable kwargs : K.
Variable fuel : nat.
Variable time0 : option Q.
Variables b e : Q.
Variable its : list (iteration R).

Hypothesis aligned_at :
  aligned_window time window_length time_step fuel time0 = Finished (b, e).
Hypothesis finished :
  moving_window_trace time signal window_length time_step function
    pass_time_in_window kwargs fuel time0 = Finished its.

Lemma finished_loop :
  window_loop time signal time_step function pass_time_in_window kwargs
    fuel (last time 0) b e = Some its.
Proof.
  pose proof finished as Htrace.
  apply moving_window_trace_inv in Htrace as (b' & e' & Hal & Hloop).
  rewrite aligned_at in Hal. now injection Hal as <- <-.
Qed.

(** Each yielded tuple comes from an iteration of the trace. *)
Lemma yielded_from (d : descriptor R) :
  In d (yields its) ->
  exists n it,
    nth_error its n = Some it /\ yielded it = Some d /\
    window_begin_time d == b + offset time_step n /\
    window_end_time d == e + offset time_step n /\
    window_yield time signal function pass_time_in_window kwargs
      (window_begin_time d) (window_end_time d) = Some d /\
    ((S n < length its)%nat -> window_end_time d < last time 0).
Proof.
  intros Hd. apply In_yields in Hd as (it & Hit & Hy).
  apply In_nth_error in Hit as [n Hn].
  destruct (window_loop_spec _ _ _ _ _ _ _ _ _ _ _ finished_loop n it Hn)
    as (Hb & He & Hyield & Hgo & _).
  rewrite Hy in Hyield. symmetry in Hyield.
  pose proof (window_yield_Some _ _ _ _ _ _ _ _ Hyield) as (Hdb & Hde & _).
  exists n, it. rewrite Hdb, Hde. repeat split; auto.
Qed.

End Reach.

(** When the last window that a run tests ends exactly on the last time
    point, no yielded tuple holds the last sample, the windows being
    half-open: every sample of every yielded window lies strictly before
    [time[-1]]. *)
Theorem boundary_on_last_time_drops_last_sample {V R K : Type}
    (time : list Q) (signal : list V) (window_length time_step : Q)
    (function : call_args V -> K -> outcome R) (pass_time_in_window : bool)
    (kwargs : K) (fuel : nat) (time0 : option Q)
    (its earlier : list (iteration R)) (final : iteration R) :
  moving_window_trace time signal window_length time_step function
    pass_time_in_window kwargs fuel time0 = Finished its ->
  its = (earlier ++ [final])%list ->
  tested_end final == last time 0 ->
  forall d, In d (yields its) ->
    (forall i t,
       In i (window_indices time (window_begin_time d) (window_end_time d)) ->
       nth_error time i = Some t -> t < last time 0) /\
    ~ In (length time - 1)%nat
        (window_indices time (window_begin_time d) (window_end_time d)).
Proof.
  intros Htrace Hits Hboundary d Hd.
  pose proof Htrace as Hinv.
  apply moving_window_trace_inv in Hinv as (b & e & Hal & Hloop).
  destruct (yielded_from _ _ _ _ _ _ _ _ _ _ _ _ Hal Htrace d Hd)
    as (m & it & Hm & _ & _ & He & _ & Hgo).
  assert (Hend : window_end_time d <= last time 0).
  { destruct (Nat.lt_ge_cases (S m) (length its)) as [Hshort | Hfinal].
    - apply Qlt_le_weak. now apply Hgo.
    - (* the tuple comes from the last iteration *)
      assert (Hlen : (m < length its)%nat)
        by (apply nth_error_Some; congruence).
      assert (Hlast : m = length earlier).
      { rewrite Hits, length_app in Hfinal, Hlen. simpl in Hfinal, Hlen. lia. }
      assert (it = final) as ->.
      { rewrite Hits, Hlast, nth_error_app2, Nat.sub_diag in Hm by lia.
        now injection Hm as <-. }
      destruct (window_loop_spec _ _ _ _ _ _ _ _ _ _ _ Hloop m final)
        as (_ & Hen & _).
      { rewrite Hits, Hlast, nth_error_app2, Nat.sub_diag by lia. reflexivity. }
      rewrite He, <- Hen, Hboundary. apply Qle_refl. }
  assert (Hbefore : forall i t,
            In i (window_indices time (window_begin_time d)
                    (window_end_time d)) ->
            nth_error time i = Some t -> t < last time 0).
  { intros i t Hi Ht. apply In_window_indices in Hi as (t' & Ht' & _ & Hlt).
    assert (t' = t) as -> by congruence. lra. }
  split; [exact Hbefore|]. intros Hin.
  assert (Hne : time <> []).
  { intros ->. unfold aligned_window in Hal. discriminate. }
  specialize (Hbefore _ _ Hin (nth_error_last time 0 Hne)).
  now apply Qlt_irrefl in Hbefore.
Qed.

(** Over the time points 0 and 1 with length and step 1 the one window,
    [[0,1)], ends on the last time point. *)
Lemma boundary_on_last_time_drops_last_sample_witness :
  let d := Descriptor 0 1 0 0 (Some (@TimeAndSignal Q [] [])) in
  In d (yields [Iteration 0 1 (Some d)]) /\
  (forall i t,
     In i (window_indices [0; 1] (window_begin_time d) (window_end_time d)) ->
     nth_error [0; 1] i = Some t -> t < last [0; 1] 0) /\
  ~ In (length [0; 1] - 1)%nat
      (window_indices [0; 1] (window_begin_time d) (window_end_time d)).
Proof.
  intros d. split; [left; reflexivity|].
  assert (Hboundary : tested_end (Iteration 0 1 (Some d)) == last [0; 1] 0)
    by reflexivity.
  apply (boundary_on_last_time_drops_last_sample [0; 1] [5; 6] 1 1 record_call
           true tt 1 None [Iteration 0 1 (Some d)] [] (Iteration 0 1 (Some d))
           eq_refl eq_refl Hboundary d).
  left. reflexivity.
Defined.

(** Windows that move by no more than their length leave no gap. *)
Lemma covering_iteration (s : Q) : 0 < s ->
  forall (count : nat) (b e t : Q),
    (0 < count)%nat -> b + s <= e ->
    b <= t -> t < e + offset s (count - 1) ->
    exists n, (n < count)%nat /\ b + offset s n <= t /\ t < e + offset s n.
Proof.
  intros Hs. induction count as [|count IH]; intros b e t Hpos Hwide Hlo Hhi;
    [lia|].
  destruct (Qlt_le_dec t e) as [Hin | Hout].
  - exists 0%nat. rewrite offset_0. repeat split; [lia | lra | lra].
  - destruct count as [|count].
    + simpl in Hhi. rewrite offset_0 in Hhi. lra.
    + destruct (IH (b + s) (e + s) t) as (n & Hn & Hb & He); try lia; try lra.
      * replace (S (S count) - 1)%nat with (S (S count - 1)) in Hhi by lia.
        rewrite offset_S in Hhi. lra.
      * exists (S n). rewrite offset_S. repeat split; [lia | lra | lra].
Qed.

(** With a positive step no larger than the window length, the yielded
    tuples of a run over a sorted series reach exactly the samples from the
    aligned origin up to the end of the last window tested: position [i] lies
    between the begin and end index of some yielded tuple if and only if
    [time[i]] is at or after the begin of the aligned window and before the
    end of the window of the last iteration.  Samples before the origin, and
    samples at or after the end of the last window, are in no tuple. *)
Theorem overlapping_windows_reach {V R K : Type}
    (time : list Q) (signal : list V) (window_length time_step : Q)
    (function : call_args V -> K -> outcome R) (pass_time_in_window : bool)
    (kwargs : K) (fuel : nat) (time0 : option Q) (b e : Q)
    (its earlier : list (iteration R)) (final : iteration R) (i : nat) (t : Q) :
  ascending time = true -> 0 < time_step -> time_step <= window_length ->
  aligned_window time window_length time_step fuel time0 = Finished (b, e) ->
  moving_window_trace time signal window_length time_step function
    pass_time_in_window kwargs fuel time0 = Finished its ->
  its = (earlier ++ [final])%list ->
  nth_error time i = Some t ->
  (exists d, In d (yields its) /\
             (window_begin_index d <= i <= window_end_index d)%nat) <->
  b <= t /\ t < tested_end final.
Proof.
  intros Hasc Hstep Hwide Hal Htrace Hits Ht.
  pose proof (finished_loop _ _ _ _ _ _ _ _ _ _ _ _ Hal Htrace) as Hloop.
  pose proof (aligned_window_length _ _ _ _ _ _ _ Hal) as Hlength.
  assert (Hfinal : tested_end final == e + offset time_step (length its - 1)).
  { destruct (window_loop_spec _ _ _ _ _ _ _ _ _ _ _ Hloop (length its - 1) final)
      as (_ & He & _); [|exact He].
    rewrite Hits, length_app. simpl.
    replace (length earlier + 1 - 1)%nat with (length earlier) by lia.
    rewrite nth_error_app2, Nat.sub_diag by lia. reflexivity. }
  rewrite Hfinal.
  split.
  - intros (d & Hd & Hi).
    destruct (yielded_from _ _ _ _ _ _ _ _ _ _ _ _ Hal Htrace d Hd)
      as (n & it & Hn & _ & Hb & He & Hy & _).
    destruct (window_yield_covers _ _ _ _ _ _ _ _ Hasc Hy i Hi)
      as (t' & Ht' & Hlo & Hhi).
    assert (t' = t) as -> by congruence.
    assert (Hlen : (n < length its)%nat) by (apply nth_error_Some; congruence).
    pose proof (offset_le time_step 0 n (Qlt_le_weak _ _ Hstep) ltac:(lia)) as H0.
    pose proof (offset_le time_step n (length its - 1)
                  (Qlt_le_weak _ _ Hstep) ltac:(lia)) as Hmax.
    rewrite offset_0 in H0. rewrite Hb in Hlo. rewrite He in Hhi.
    split; lra.
  - intros [Hlo Hhi].
    assert (Hcount : (0 < length its)%nat).
    { pose proof (window_loop_nonempty _ _ _ _ _ _ _ _ _ _ _ Hloop).
      destruct its; [congruence | simpl; lia]. }
    destruct (covering_iteration time_step Hstep (length its) b e t Hcount)
      as (n & Hn & Hb & He); [lra | exact Hlo | exact Hhi |].
    destruct (nth_error its n) as [it|] eqn:Hit;
      [|apply nth_error_None in Hit; lia].
    destruct (window_loop_spec _ _ _ _ _ _ _ _ _ _ _ Hloop n it Hit)
      as (Hitb & Hite & Hy & _).
    assert (Hin : In i (window_indices time (tested_begin it) (tested_end it))).
    { apply In_window_indices. exists t. rewrite Hitb, Hite. auto. }
    destruct (yielded it) as [d|] eqn:Hyield.
    + symmetry in Hy.
      pose proof (window_yield_Some _ _ _ _ _ _ _ _ Hy)
        as (_ & _ & _ & _ & Hrange & _).
      exists d. split; [|now apply Hrange].
      apply In_yields. exists it. split; [|exact Hyield].
      eapply nth_error_In; eauto.
    + symmetry in Hy. apply window_yield_None in Hy.
      rewrite Hy in Hin. destruct Hin.
Qed.

(** Scenario A: the windows reach the samples in [[0, 12)]; the sample at
    position 5 (time 11) is reached. *)
Lemma overlapping_windows_reach_witness :
  (exists d,
     In d [ Descriptor 0 3 0 2 (Some (inl 3));
            Descriptor 3 6 3 3 (Some (inl 6));
            @Descriptor (Q + list Q) 9 12 4 5 (Some (inl 15)) ] /\
     (window_begin_index d <= 5 <= window_end_index d)%nat) <->
  0 <= 11 /\ 11 < 12.
Proof.
  apply (overlapping_windows_reach scenario_time scenario_signal 3 3
           python_sum false tt 4 (Some 0) 0 3
           [ Iteration 0 3 (Some (Descriptor 0 3 0 2 (Some (inl 3))));
             Iteration 3 6 (Some (Descriptor 3 6 3 3 (Some (inl 6))));
             Iteration 6 9 None;
             Iteration 9 12 (Some (Descriptor 9 12 4 5 (Some (inl 15)))) ]
           [ Iteration 0 3 (Some (Descriptor 0 3 0 2 (Some (inl 3))));
             Iteration 3 6 (Some (Descriptor 3 6 3 3 (Some (inl 6))));
             Iteration 6 9 None ]
           (Iteration 9 12 (Some (Descriptor 9 12 4 5 (Some (inl 15)))))
           5 11).
  - reflexivity.
  - reflexivity.
  - vm_compute. discriminate.
  - vm_compute. reflexivity.
  - vm_compute. reflexivity.
  - reflexivity.
  - reflexivity.
Defined.

(** *** Windows that do not overlap *)

Lemma Sorted_map {A B : Type} (Rel : A -> A -> Prop) (Rel' : B -> B -> Prop)
    (f : A -> B) (l : list A) :
  (forall x y, Rel x y -> Rel' (f x) (f y)) ->
  Sorted Rel l -> Sorted Rel' (map f l).
Proof.
  intros Himpl. induction 1 as [|x l Hl IH Hhd]; simpl; [constructor|].
  constructor; [exact IH|].
  destruct Hhd as [|y l' Hxy]; simpl; constructor. now apply Himpl.
Qed.

Lemma increasing_below (l : list nat) : forall lo hi,
  Sorted lt l -> Forall (fun x => (lo <= x < hi)%nat) l ->
  (length l <= hi - lo)%nat.
Proof.
  induction l as [|x l IH]; intros lo hi Hsorted Hall; simpl; [lia|].
  inversion Hsorted as [|? ? Hl Hhd]; subst.
  inversion Hall as [|? ? Hx Hrest]; subst.
  assert (Hnext : Forall (fun y => (S x <= y < hi)%nat) l).
  { destruct Hhd as [|y l' Hxy]; [constructor|].
    inversion Hrest as [|? ? Hy Hrest']; subst.
    inversion Hl as [|? ? Hl' Hhd']; subst.
    constructor; [lia|].
    apply Sorted_StronglySorted in Hl; [|intros ? ? ?; lia].
    inversion Hl as [|? ? _ Hgt]; subst.
    rewrite Forall_forall in *. intros z Hz.
    specialize (Hgt z Hz). specialize (Hrest' z Hz). lia. }
  specialize (IH (S x) hi Hl Hnext). lia.
Qed.

(** With a positive step that is at least the window length, the windows of
    a run over a sorted series share no sample: each yielded tuple begins
    after the position at which the one before it ended.  So there are no
    more tuples than samples. *)
Theorem disjoint_windows_share_no_sample {V R K : Type}
    (time : list Q) (signal : list V) (window_length time_step : Q)
    (function : call_args V -> K -> outcome R) (pass_time_in_window : bool)
    (kwargs : K) (fuel : nat) (time0 : option Q) (ds : list (descriptor R)) :
  ascending time = true -> 0 < time_step -> window_length <= time_step ->
  moving_window time signal window_length time_step function
    pass_time_in_window kwargs fuel time0 = Finished ds ->
  Sorted (fun d1 d2 => (window_end_index d1 < window_begin_index d2)%nat) ds /\
  (length ds <= length time)%nat.
Proof.
  intros Hasc Hstep Hnarrow Hgen.
  set (yield_of := window_yield time signal function pass_time_in_window kwargs).
  set (own := fun d : descriptor R =>
                yield_of (window_begin_time d) (window_end_time d) = Some d /\
                window_end_time d == window_begin_time d + window_length).
  assert (Hown : Forall own ds).
  { apply Forall_forall. intros d Hd.
    destruct (emitted_inv _ _ _ _ _ _ _ _ _ _ Hgen d Hd)
      as (Hy & b & e & n & Hal & Hb & He).
    split; [exact Hy|].
    apply aligned_window_length in Hal. rewrite Hb, He, Hal. ring. }
  assert (Hordered : Sorted (successive time_step) ds).
  { pose proof Hgen as Hinv.
    apply moving_window_inv in Hinv as (its & Htrace & ->).
    apply moving_window_trace_inv in Htrace as (b & e & _ & Hloop).
    apply (yields_in_order time signal time_step function pass_time_in_window
             kwargs Hasc Hstep its b e).
    intros n it Hn.
    destruct (window_loop_spec _ _ _ _ _ _ _ _ _ _ _ Hloop n it Hn)
      as (Hb & He & Hy & _).
    auto. }
  assert (Hapart : Sorted (fun d1 d2 =>
                     (window_begin_index d1 <= window_end_index d1
                      < window_begin_index d2)%nat) ds).
  { apply (Sorted_strengthen (successive time_step) _ own); try assumption.
    intros d1 d2 ((k & Hk & Hmoved) & _) [Hy1 Hw1] [Hy2 _].
    pose proof (window_yield_Some _ _ _ _ _ _ _ _ Hy1)
      as (_ & _ & Hb1 & He1 & Hr1 & _).
    pose proof (window_yield_Some _ _ _ _ _ _ _ _ Hy2)
      as (_ & _ & Hb2 & _ & _ & _).
    split; [apply Hr1 in Hb1; lia|].
    destruct (Nat.lt_ge_cases (window_end_index d1) (window_begin_index d2))
      as [Hlt | Hge]; [exact Hlt|].
    exfalso.
    apply In_window_indices in He1 as (t1 & Ht1 & _ & Hhi1).
    apply In_window_indices in Hb2 as (t2 & Ht2 & Hlo2 & _).
    pose proof (ascending_nth_error time Hasc _ _ _ _ Hge Ht2 Ht1) as Hle.
    pose proof (offset_le time_step 1 k (Qlt_le_weak _ _ Hstep) Hk) as Hone.
    rewrite offset_S, offset_0 in Hone.
    rewrite Hmoved in Hlo2. rewrite Hw1 in Hhi1. lra. }
  split.
  - eapply (Sorted_strengthen _ _ (fun _ => True)); [| exact Hapart |].
    + intros d1 d2 H _ _. cbv beta in H. lia.
    + apply Forall_forall. auto.
  - rewrite <- (length_map window_begin_index).
    replace (length time) with (length time - 0)%nat by lia.
    apply increasing_below.
    + eapply Sorted_map; [|exact Hapart].
      intros d1 d2 H. cbv beta in H. lia.
    + apply Forall_forall. intros x Hx.
      apply in_map_iff in Hx as (d & <- & Hd).
      rewrite Forall_forall in Hown. destruct (Hown d Hd) as [Hy _].
      pose proof (window_yield_Some _ _ _ _ _ _ _ _ Hy)
        as (_ & _ & Hb & _).
      apply In_window_indices in Hb as (t & Ht & _).
      split; [lia|]. apply nth_error_Some. congruence.
Qed.

Lemma disjoint_windows_share_no_sample_witness :
  Sorted (fun d1 d2 => (window_end_index d1 < window_begin_index d2)%nat)
    [ Descriptor 0 3 0 2 (Some (inl 3));
      Descriptor 3 6 3 3 (Some (inl 6));
      @Descriptor (Q + list Q) 9 12 4 5 (Some (inl 15)) ] /\
  Nat.le
    (length [ Descriptor 0 3 0 2 (Some (inl 3));
              Descriptor 3 6 3 3 (Some (inl 6));
              @Descriptor (Q + list Q) 9 12 4 5 (Some (inl 15)) ])
    (length scenario_time).
Proof.
  apply (disjoint_windows_share_no_sample scenario_time scenario_signal 3 3
           python_sum false tt 4 (Some 0)).
  - reflexivity.
  - reflexivity.
  - vm_compute. discriminate.
  - vm_compute. reflexivity.
Defined.

(** * Properties of settings.py *)

Import Settings.

Example load_group :
  fst (load (environment_with (Some (Document settings_document))) ∅
         (Some "Power Duration Curve"%string) "settings.yaml" None false)
  = Returns power_duration_curve.
Proof. vm_compute. reflexivity. Qed.

Example load_memoizes :
  snd (load (environment_with (Some (Document settings_document))) ∅
         (Some "Power Duration Curve"%string) "settings.yaml" None false)
    !! "/pkg/settings.yaml"%string
  = Some settings_document.
Proof. vm_compute. reflexivity. Qed.

Lemma items_cases (value : yaml) :
  match items value with
  | Returns settings => value = YMap settings
  | Raises e => e = AttributeError /\ forall settings, value <> YMap settings
  end.
Proof. destruct value; simpl; auto; split; auto; discriminate. Qed.

Lemma contains_raises (name : string) (value : yaml) (e : exception) :
  contains name value = Raises e -> e = TypeError.
Proof. destruct value; simpl; congruence. Qed.

Lemma subscript_raises (value : yaml) (name : string) (e : exception) :
  subscript value name = Raises e -> e = KeyError \/ e = TypeError.
Proof.
  destruct value; simpl; try (intros [= <-]; now right).
  destruct lookup_key; [discriminate|]. intros [= <-]. now left.
Qed.




(** ** Further properties of settings.py *)

(** *** The memoized documents *)

Lemma load_select_group (env : environment) (memoized_yaml : gmap string yaml)
    (group_name : option string) (filename : string)
    (location : option string) (force : bool) :
  let path := join (yaml_location env filename location) filename in
  let read := read_configuration_file env memoized_yaml path force in
  load env memoized_yaml group_name filename location force =
  (select_group group_name (fst read), snd read).
Proof.
  intros path read. subst read. unfold load. fold path.
  destruct (read_configuration_file env memoized_yaml path force)
    as [[document|e] memo]; unfold select_group, bind; simpl.
  - destruct (truthy document); simpl; [|reflexivity].
    destruct group_name as [[|a name]|]; try reflexivity.
    destruct (contains _ document) as [[|]|]; try reflexivity.
    destruct (subscript document _); [|reflexivity].
    destruct (truthy _); reflexivity.
  - destruct e; reflexivity.
Qed.

Lemma read_configuration_file_hit (env : environment)
    (memoized_yaml : gmap string yaml) (path : string) (document : yaml) :
  memoized_yaml !! path = Some document ->
  read_configuration_file env memoized_yaml path false
  = (Returns document, memoized_yaml).
Proof. intros Hmemo. unfold read_configuration_file. now rewrite Hmemo. Qed.

(** What [read_configuration_file] can come back with. *)
Lemma read_configuration_file_outcomes (env : environment)
    (memoized_yaml : gmap string yaml) (path : string) (force : bool) :
  let read := read_configuration_file env memoized_yaml path force in
  (exists document,
     fst read = Returns document /\ snd read !! path = Some document /\
     (snd read = memoized_yaml \/
      snd read = <[path := document]> memoized_yaml /\
      files env !! path = Some (Document document))) \/
  ((fst read = Raises FileNotFoundError /\ files env !! path = None \/
    fst read = Raises (SettingsError MalformedDocument) /\
    files env !! path = Some Malformed) /\
   snd read = memoized_yaml).
Proof.
  unfold read_configuration_file.
  destruct force; simpl.
  - destruct (files env !! path) as [[|document]|]; simpl; auto.
    left. exists document. rewrite lookup_insert_eq. auto 6.
  - destruct (memoized_yaml !! path) as [document|] eqn:Hmemo; simpl.
    + left. exists document. auto.
    + destruct (files env !! path) as [[|document]|]; simpl; auto.
      left. exists document. rewrite lookup_insert_eq. auto 6.
Qed.

(** Once [Settings.load] has got hold of a document (it raised neither for
    a missing file nor for malformed YAML), the document is memoized under
    its path.  A later call without [force] that looks for the file in the
    same directory ([yaml_location] comes out the same, which with
    [location=None] depends on whether the file is still, or still not,
    found next to the caller) no longer opens the file: whatever the
    contents of the files have become, the same group gives the same result,
    and any group gives what the memoized document says.  This holds for an
    empty document too, which is memoized before it is rejected: the "empty
    document" error persists after the file has been filled. *)
Theorem load_again_is_served_from_memo (env env' : environment)
    (memoized_yaml : gmap string yaml) (group_name : option string)
    (filename : string) (location : option string) (force : bool) :
  let first := load env memoized_yaml group_name filename location force in
  yaml_location env' filename location = yaml_location env filename location ->
  fst first <> Raises (SettingsError FileNotFound) ->
  fst first <> Raises (SettingsError MalformedDocument) ->
  load env' (snd first) group_name filename location false = first /\
  (forall other_group,
     load env' (snd first) other_group filename location false =
     load env (snd first) other_group filename location false) /\
  exists document,
    snd first !! join (yaml_location env filename location) filename
      = Some document.
Proof.
  intros first Hlocation Hfound Hformed. subst first.
  revert Hfound Hformed. rewrite !load_select_group, Hlocation. simpl.
  set (path := join (yaml_location env filename location) filename).
  destruct (read_configuration_file_outcomes env memoized_yaml path force)
    as [(document & Hfst & Hsnd & _) | [[[Hfst _] | [Hfst _]] _]];
    rewrite Hfst; intros Hfound Hformed; try (exfalso; auto; fail).
  split; [|split; [|eauto]].
  - rewrite (read_configuration_file_hit env' _ _ _ Hsnd). reflexivity.
  - intros other_group. rewrite !load_select_group, Hlocation. fold path.
    now rewrite !(read_configuration_file_hit _ _ _ _ Hsnd).
Qed.

(** An empty file is read and memoized as [None] before [load] rejects it;
    once the file holds the settings, [load] without [force] still raises
    the "empty document" error. *)
Lemma load_again_is_served_from_memo_witness :
  let env := environment_with (Some (Document YNull)) in
  let env' := environment_with (Some (Document settings_document)) in
  let first := load env ∅ (Some "Power Duration Curve"%string)
                 "settings.yaml" None false in
  fst first = Raises (SettingsError EmptyDocument) /\
  load env' (snd first) (Some "Power Duration Curve"%string)
    "settings.yaml" None false = first.
Proof.
  intros env env' first. split; [vm_compute; reflexivity|].
  apply (load_again_is_served_from_memo env env' ∅
           (Some "Power Duration Curve"%string) "settings.yaml" None false).
  - vm_compute. reflexivity.
  - vm_compute. discriminate.
  - vm_compute. discriminate.
Defined.

#[local] Set Warnings "-clear-no-such-hyp".

(** [Settings.load] changes the memoized documents at the path it reads and
    nowhere else, and never forgets a location: the locations after a call
    are those before it, plus the path when the file was read and was
    well-formed.  A call that raises because the file is missing or
    malformed leaves the memoized documents as they were. *)
Theorem load_touches_one_location (env : environment)
    (memoized_yaml : gmap string yaml) (group_name : option string)
    (filename : string) (location : option string) (force : bool) :
  let path := join (yaml_location env filename location) filename in
  let outcome := load env memoized_yaml group_name filename location force in
  (forall other, other <> path ->
     snd outcome !! other = memoized_yaml !! other) /\
  get_memoized_locations memoized_yaml ⊆ get_memoized_locations (snd outcome) /\
  get_memoized_locations (snd outcome) ⊆
    get_memoized_locations memoized_yaml ∪ {[ path ]} /\
  (fst outcome = Raises (SettingsError FileNotFound) \/
   fst outcome = Raises (SettingsError MalformedDocument) ->
   snd outcome = memoized_yaml).
Proof.
  intros path outcome. subst outcome. rewrite load_select_group. simpl.
  fold path. unfold get_memoized_locations.
  destruct (read_configuration_file_outcomes env memoized_yaml path force)
    as [(document & Hfst & _ & [Hsnd | [Hsnd _]]) | [_ Hsnd]];
    rewrite Hsnd; try (repeat split; auto; set_solver).
  rewrite Hfst. repeat split.
  - intros other Hother. now apply lookup_insert_ne.
  - rewrite dom_insert_L. set_solver.
  - rewrite dom_insert_L. set_solver.
  - unfold select_group, bind.
    destruct (truthy document); simpl; [|intros [|]; discriminate].
    destruct group_name as [[|a name]|];
      try (pose proof (items_cases document) as Hi;
           destruct (items document); [intros [|]; discriminate|];
           destruct Hi as [-> _]; intros [|]; discriminate).
    destruct (contains _ document) as [[|]|e] eqn:Hc;
      try (intros [|]; discriminate).
    + destruct (subscript document _) as [group|e] eqn:Hs.
      * destruct (truthy group); simpl; [|intros [|]; discriminate].
        pose proof (items_cases group) as Hi.
        destruct (items group); [intros [|]; discriminate|].
        destruct Hi as [-> _]. intros [|]; discriminate.
      * destruct (subscript_raises _ _ _ Hs) as [-> | ->];
          intros [|]; discriminate.
    + rewrite (contains_raises _ _ _ Hc). intros [|]; discriminate.
Qed.

(** *** [Settings.to_string] *)

Lemma lookup_key_In (name : string) (items : list (string * yaml)) :
  In name (map fst items) -> exists value, lookup_key name items = Some value.
Proof.
  induction items as [|[key value] items IH]; simpl; [tauto|].
  intros Hin. destruct (String.eqb key name) eqn:Heq; [eauto|].
  apply IH. destruct Hin as [-> | Hin]; [|exact Hin].
  now rewrite String.eqb_refl in Heq.
Qed.

Lemma field_lines_returns (str : yaml -> string) (items : list (string * yaml)) :
  forall fields msg,
    incl fields (map fst items) ->
    exists msg', field_lines str (YMap items) fields msg = Returns msg'.
Proof.
  induction fields as [|field fields IH]; intros msg Hincl; simpl; [eauto|].
  destruct (lookup_key_In field items) as [value Hvalue];
    [apply Hincl; now left|].
  unfold bind. rewrite Hvalue. apply IH.
  intros f Hf. apply Hincl. now right.
Qed.

Lemma to_string_cases (str : yaml -> string)
    (memoized : list (string * yaml)) :
  ((exists msg, to_string str memoized = Returns msg) <->
   Forall (fun entry => exists items, snd entry = YMap items) memoized) /\
  (forall e, to_string str memoized = Raises e -> e = AttributeError).
Proof.
  unfold to_string. generalize ""%string as msg.
  induction memoized as [|[key document] memoized IH]; intros msg.
  - split; [|discriminate]. split; [constructor | eauto].
  - cbn [file_lines]. destruct document as [| | | | | |items];
      try (split; [split; [intros [? H]; discriminate H
                          | intros H; inversion H as [|? ? [? Hmap] ?];
                            discriminate Hmap]
                  | now intros e [= <-]]).
    unfold bind at 1. cbn [keys].
    destruct (field_lines_returns str items (map fst items)
                (msg ++ "YAML file: " ++ key ++ newline)%string
                (incl_refl _)) as [msg' Hfields].
    unfold bind. rewrite Hfields.
    destruct (IH msg') as [Hiff Hraise]. split; [|exact Hraise].
    rewrite Hiff. split.
    + intros Hall. constructor; [simpl; eauto | exact Hall].
    + intros Hall. now inversion Hall.
Qed.

(** [Settings.to_string] goes through if and only if every memoized
    document is a mapping; otherwise it raises [AttributeError], at the
    first document that has no [keys]. *)
Theorem to_string_needs_mappings (str : yaml -> string)
    (memoized : list (string * yaml)) :
  ((exists msg, to_string str memoized = Returns msg) <->
   Forall (fun entry => exists items, snd entry = YMap items) memoized) /\
  (forall e, to_string str memoized = Raises e -> e = AttributeError).
Proof. apply to_string_cases. Qed.

(** After an attempt to load an empty file, which memoizes [None] and then
    raises the "empty document" error, [Settings.to_string] raises
    [AttributeError], whatever else is memoized. *)
Theorem to_string_after_empty_file (str : yaml -> string) (env : environment)
    (memoized_yaml : gmap string yaml) (group_name : option string)
    (filename : string) (location : option string) (force : bool)
    (memoized : list (string * yaml)) :
  let path := join (yaml_location env filename location) filename in
  let outcome := load env memoized_yaml group_name filename location force in
  files env !! path = Some (Document YNull) ->
  force = true \/ memoized_yaml !! path = None ->
  lists memoized (snd outcome) ->
  fst outcome = Raises (SettingsError EmptyDocument) /\
  to_string str memoized = Raises AttributeError.
Proof.
  intros path outcome Hfile Hread Hlists. subst outcome.
  rewrite load_select_group in *. simpl in *. fold path in Hlists |- *.
  assert (Hfst : read_configuration_file env memoized_yaml path force
                 = (Returns YNull, <[path := YNull]> memoized_yaml)).
  { unfold read_configuration_file.
    destruct Hread as [-> | Hmemo]; [|destruct force; rewrite ?Hmemo];
      now rewrite Hfile. }
  rewrite Hfst in *. simpl in *. split; [reflexivity|].
  assert (Hin : In (path, YNull) memoized)
    by (apply Hlists, lookup_insert_eq).
  destruct (to_string_cases str memoized) as [Hiff Hraise].
  destruct (to_string str memoized) as [msg|e] eqn:Hto.
  - exfalso. assert (Hall : exists m, Returns (E := exception) msg = Returns m)
      by eauto.
    apply Hiff in Hall. rewrite Forall_forall in Hall.
    destruct (Hall _ Hin) as [items Hmap]. discriminate Hmap.
  - now rewrite (Hraise e eq_refl).
Qed.

Lemma to_string_after_empty_file_witness :
  let env := environment_with (Some (Document YNull)) in
  fst (load env ∅ None "settings.yaml" None false)
    = Raises (SettingsError EmptyDocument) /\
  to_string (fun _ => ""%string) [("/pkg/settings.yaml"%string, YNull)]
    = Raises AttributeError.
Proof.
  intros env.
  apply (to_string_after_empty_file (fun _ => ""%string) env ∅ None
           "settings.yaml" None false [("/pkg/settings.yaml"%string, YNull)]).
  - vm_compute. reflexivity.
  - right. reflexivity.
  - intros key document.
    change (snd (load env ∅ None "settings.yaml" None false))
      with (<[ "/pkg/settings.yaml"%string := YNull ]> (∅ : gmap string yaml)).
    split.
    + intros [[= <- <-] | []]. apply lookup_insert_eq.
    + intros Hlookup.
      destruct (decide ("/pkg/settings.yaml"%string = key)) as [<- | Hne].
      * rewrite lookup_insert_eq in Hlookup. injection Hlookup as <-. now left.
      * rewrite lookup_insert_ne, lookup_empty in Hlookup by exact Hne.
        discriminate.
Defined.

Lemma substring_prefix_length (m : nat) (s : string) :
  String.length (String.substring 0 m s) = Nat.min m (String.length s).
Proof.
  revert m. induction s as [|c s IH]; intros [|m]; simpl; auto.
Qed.

Lemma substring_whole (m : nat) (s : string) :
  (String.length s <= m)%nat -> String.substring 0 m s = s.
Proof.
  revert m. induction s as [|c s IH]; intros [|m] Hlen; simpl in *;
    try reflexivity; try lia.
  f_equal. apply IH. lia.
Qed.

Lemma string_length_append (s1 s2 : string) :
  String.length (s1 ++ s2)%string = (String.length s1 + String.length s2)%nat.
Proof. induction s1 as [|c s1 IH]; simpl; auto. Qed.

(** How [Settings.to_string] shows a value: in full when it has at most 60
    characters, otherwise its first 60 characters followed by [" ..."]; so
    never more than 64 characters. *)
Theorem shown_is_bounded (line : string) :
  (String.length (shown line) <= 64)%nat /\
  ((String.length line <= 60)%nat -> shown line = line) /\
  ((60 < String.length line)%nat ->
   String.length (shown line) = 64%nat /\
   String.prefix (String.substring 0 60 line) line = true /\
   shown line = (String.substring 0 60 line ++ " ...")%string).
Proof.
  unfold shown.
  destruct (Nat.ltb 60 (String.length line)) eqn:Hlong.
  - apply Nat.ltb_lt in Hlong.
    assert (Hcut : String.length (String.substring 0 60 line) = 60%nat)
      by (rewrite substring_prefix_length; lia).
    split; [|split].
    + rewrite string_length_append, Hcut. simpl. lia.
    + lia.
    + intros _. split; [|split; [|reflexivity]].
      * rewrite string_length_append, Hcut. reflexivity.
      * apply String.prefix_correct. rewrite Hcut. reflexivity.
  - apply Nat.ltb_ge in Hlong.
    split; [|split].
    + rewrite substring_prefix_length. lia.
    + intros _. now apply substring_whole.
    + lia.
Qed.

(** *** [get_caller_info] *)

(** [get_caller_info] never fails: going back [level] frames it stops at
    the outermost frame when there are fewer callers than that. *)
Theorem get_caller_info_clamps {frame_info : Type} (level : nat)
    (frame : frame_info) (callers : list frame_info) :
  nth_error (frame :: callers) (Nat.min level (length callers))
  = Some (get_caller_info level frame callers).
Proof.
  revert frame callers.
  induction level as [|level IH]; intros frame callers; [reflexivity|].
  destruct callers as [|back callers]; [reflexivity|].
  simpl. apply IH.
Qed.

(** *** [AttributeDict] *)

Lemma lookup_setitem (items : list (string * yaml)) (key : string) (value : yaml) :
  lookup_key key (setitem items key value) = Some value.
Proof.
  induction items as [|[k v] items IH]; simpl.
  - now rewrite String.eqb_refl.
  - destruct (String.eqb k key) eqn:Heq; simpl; now rewrite Heq.
Qed.

Lemma lookup_setitem_other (items : list (string * yaml)) (key other : string)
    (value : yaml) :
  other <> key ->
  lookup_key other (setitem items key value) = lookup_key other items.
Proof.
  intros Hne. induction items as [|[k v] items IH]; simpl.
  - apply String.eqb_neq in Hne. rewrite String.eqb_sym in Hne. now rewrite Hne.
  - destruct (String.eqb k key) eqn:Heq; simpl.
    + apply String.eqb_eq in Heq as ->.
      assert (String.eqb key other = false) as ->
        by (apply String.eqb_neq; congruence).
      reflexivity.
    + now rewrite IH.
Qed.

Lemma setitem_keys (items : list (string * yaml)) (key : string) (value : yaml) :
  map fst (setitem items key value) =
  if existsb (String.eqb key) (map fst items)
  then map fst items
  else (map fst items ++ [key])%list.
Proof.
  induction items as [|[k v] items IH]; simpl; [reflexivity|].
  rewrite (String.eqb_sym key k).
  destruct (String.eqb k key) eqn:Heq; simpl; [reflexivity|].
  rewrite IH. destruct (existsb _ _); reflexivity.
Qed.

(** Assigning an attribute always stores an item of the dictionary, at the
    place of the old item when the key was there and at the end otherwise.
    Reading the attribute gives the stored value back, unless the name is
    [_label] or the name of something defined on the class: then the
    assignment does not show when the attribute is read.  Other attributes
    read as before. *)
Theorem attribute_assignment (class_attribute : string -> bool)
    (ad : AttributeDict) (name : string) (value : yaml) :
  let ad' := setattr ad name value in
  lookup_key name (entries ad') = Some value /\
  map fst (entries ad') =
    (if existsb (String.eqb name) (map fst (entries ad))
     then map fst (entries ad)
     else (map fst (entries ad) ++ [name])%list) /\
  getattr class_attribute ad' name =
    (if String.eqb name "_label" || class_attribute name
     then getattr class_attribute ad name
     else Returns (Item value)) /\
  (forall other, other <> name ->
     getattr class_attribute ad' other = getattr class_attribute ad other).
Proof.
  intros ad'. subst ad'. unfold setattr, getattr. simpl.
  split; [apply lookup_setitem|]. split; [apply setitem_keys|]. split.
  - destruct (String.eqb name "_label"); simpl; [reflexivity|].
    destruct (class_attribute name); [reflexivity|].
    now rewrite lookup_setitem.
  - intros other Hother. now rewrite lookup_setitem_other.
Qed.

Lemma delitem_cases (items : list (string * yaml)) (key : string) :
  NoDup (map fst items) ->
  match delitem items key with
  | Raises e => e = KeyError /\ lookup_key key items = None
  | Returns rest =>
      lookup_key key items <> None /\
      lookup_key key rest = None /\
      (forall other, other <> key ->
         lookup_key other rest = lookup_key other items) /\
      length items = S (length rest) /\
      incl (map fst rest) (map fst items) /\
      NoDup (map fst rest)
  end.
Proof.
  induction items as [|[k v] items IH]; intros Hnodup; simpl; [auto|].
  inversion Hnodup as [|? ? Hfresh Hrest]; subst.
  destruct (String.eqb k key) eqn:Heq.
  - apply String.eqb_eq in Heq as ->. repeat split; try assumption.
    + discriminate.
    + destruct (lookup_key key items) as [w|] eqn:Hlookup; [|reflexivity].
      exfalso. apply Hfresh. clear -Hlookup.
      induction items as [|[k' v'] items IH]; simpl in *; [discriminate|].
      destruct (String.eqb k' key) eqn:Heq;
        [left; now apply String.eqb_eq | right; now apply IH].
    + intros other Hother.
      assert (String.eqb key other = false) as ->
        by (apply String.eqb_neq; congruence).
      reflexivity.
    + intros x Hx. now right.
  - specialize (IH Hrest). unfold bind. destruct (delitem items key) as [rest|e].
    + destruct IH as (Hin & Hgone & Hother & Hlen & Hincl & Hnd).
      simpl. rewrite Heq. repeat split; try assumption.
      * intros other Hother'. destruct (String.eqb k other); [reflexivity|].
        now apply Hother.
      * now rewrite Hlen.
      * intros x [<- | Hx]; [now left | right; now apply Hincl].
      * constructor; [|exact Hnd]. intros Hk. apply Hfresh. now apply Hincl.
    + exact IH.
Qed.

(** Deleting an attribute deletes the item of that name.  When there is no
    such item it raises [KeyError] (not [AttributeError]), also for [_label]
    and for names defined on the class.  After a deletion that went through
    the name is no longer a key, every other key keeps its value, and an
    attribute of that name that is neither [_label] nor defined on the class
    can no longer be read. *)
Theorem attribute_deletion (class_attribute : string -> bool)
    (ad : AttributeDict) (name : string) :
  NoDup (map fst (entries ad)) ->
  match delattr ad name with
  | Raises e => e = KeyError /\ lookup_key name (entries ad) = None
  | Returns ad' =>
      lookup_key name (entries ad) <> None /\
      lookup_key name (entries ad') = None /\
      (forall other, other <> name ->
         lookup_key other (entries ad') = lookup_key other (entries ad)) /\
      length (entries ad) = S (length (entries ad')) /\
      _label ad' = _label ad /\
      NoDup (map fst (entries ad')) /\
      (String.eqb name "_label" || class_attribute name = false ->
       getattr class_attribute ad' name = Raises AttributeError)
  end.
Proof.
  intros Hnodup. unfold delattr, bind.
  pose proof (delitem_cases (entries ad) name Hnodup) as Hcases.
  destruct (delitem (entries ad) name) as [rest|e]; [|exact Hcases].
  destruct Hcases as (Hin & Hgone & Hother & Hlen & _ & Hnd).
  simpl. repeat split; try assumption.
  intros Hplain. unfold getattr. simpl.
  apply orb_false_iff in Hplain as [-> ->]. now rewrite Hgone.
Qed.

Lemma attribute_deletion_witness :
  let ad := {| entries := power_duration_curve; _label := None |} in
  delattr ad "TIME_GRANULARITY" =
    Returns {| entries := [ ("MIN_WINDOW_DURATION"%string, YInt 10);
                            ("WINDOW_DURATION_STEP"%string, YInt 60) ];
               _label := None |} /\
  match delattr ad "WINDOW" with
  | Raises e => e = KeyError /\ lookup_key "WINDOW" (entries ad) = None
  | Returns _ => False
  end.
Proof.
  intros ad. split; [reflexivity|].
  assert (Hnodup : NoDup (map fst (entries ad))).
  { simpl. repeat constructor; simpl; intuition discriminate. }
  pose proof (attribute_deletion (fun _ => false) ad "WINDOW" Hnodup) as H.
  destruct (delattr ad "WINDOW") as [ad'|e] eqn:Hdel; [discriminate Hdel|].
  exact H.
Defined.

(** * Properties of data_extraction.py *)

Import DataExtraction.

Example get_data_recording :
  get_data recording HEART_RATE = Returns ([0; 3], [120; 125]) /\
  get_data recording POWER = Returns ([], []).
Proof. split; vm_compute; reflexivity. Qed.

Lemma has_field_get_value (fields : list (string * field_value)) (name : string) :
  has_field fields name =
  match get_value fields name with
  | Returns _ => true
  | Raises _ => false
  end.
Proof.
  induction fields as [|[key value] fields IH]; [reflexivity|].
  unfold has_field in *. simpl. destruct (String.eqb key name); simpl; auto.
Qed.

Lemma process_cases (data_type : DataType) (st : state) (fr : frame) :
  aligned st ->
  match process data_type st fr with
  | Returns st' =>
      aligned st' /\ readable data_type fr = true /\
      if value_present data_type fr
      then length (data st') = S (length (data st)) /\
           length (time st') = S (length (time st))
      else st' = st
  | Raises _ => readable data_type fr = false
  end.
Proof.
  intros Hst. destruct st as [times values first].
  destruct Hst as [Hlen Hfirst]. simpl in Hlen, Hfirst.
  destruct fr as [name fields|]; [|repeat split; auto].
  unfold process, readable, value_present, bind.
  rewrite has_field_get_value.
  destruct (String.eqb name "record"); cbn [negb andb orb];
    [|repeat split; auto].
  destruct (get_value fields (field_name data_type)) as [value|e];
    cbn [negb]; [|repeat split; auto].
  destruct (get_value fields (field_name TIME)) as [timepoint|e];
    [|destruct value; reflexivity].
  destruct value as [|x|seconds|]; cbn [float];
    try (destruct timepoint; reflexivity); [repeat split; auto|].
  destruct timepoint as [|y|t|];
    destruct Hfirst as [-> | [t0 ->]]; cbn; try reflexivity.
  all: unfold aligned; cbn; rewrite !length_app, Hlen; cbn.
  all: repeat split; eauto; lia.
Qed.

Lemma process_appends_pairs (data_type : DataType) (st st' : state) (fr : frame) :
  process data_type st fr = Returns st' ->
  if value_present data_type fr
  then exists seconds value,
         time st' = (time st ++ [seconds])%list /\
         data st' = (data st ++ [value])%list
  else st' = st.
Proof.
  destruct fr as [name fields|]; [|now intros [= <-]].
  unfold process, value_present, bind. rewrite has_field_get_value.
  destruct (String.eqb name "record"); cbn [negb andb]; [|now intros [= <-]].
  destruct (get_value fields (field_name data_type)) as [value|e];
    cbn [negb]; [|now intros [= <-]].
  destruct (get_value fields (field_name TIME)) as [timepoint|e];
    [|discriminate].
  destruct value as [|x|seconds|]; cbn [float]; try discriminate;
    [now intros [= <-]|].
  destruct (elapsed_seconds _ _) as [seconds|e]; [|discriminate].
  intros [= <-]. simpl. eauto.
Qed.

Lemma read_frames_cases (data_type : DataType) (frames : list frame) :
  forall st, aligned st ->
  match read_frames data_type frames st with
  | Returns st' =>
      aligned st' /\
      Forall (fun fr => readable data_type fr = true) frames /\
      length (data st') =
        (length (data st) +
         length (List.filter (value_present data_type) frames))%nat
  | Raises _ => exists fr, In fr frames /\ readable data_type fr = false
  end.
Proof.
  induction frames as [|fr frames IH]; intros st Hst; simpl.
  - repeat split; [apply Hst | apply Hst | constructor | lia].
  - pose proof (process_cases data_type st fr Hst) as Hfr.
    unfold bind. destruct (process data_type st fr) as [st1|e].
    + destruct Hfr as (Hst1 & Hreadable & Hgrow).
      specialize (IH st1 Hst1).
      destruct (read_frames data_type frames st1) as [st'|e'].
      * destruct IH as (Hst' & Hall & Hcount).
        split; [exact Hst'|]. split; [now constructor|].
        rewrite Hcount.
        destruct (value_present data_type fr); simpl.
        -- destruct Hgrow as [-> _]. lia.
        -- now rewrite Hgrow.
      * destruct IH as (fr' & Hin & Hbad). exists fr'. split; [now right | exact Hbad].
    + exists fr. split; [now left | exact Hfr].
Qed.

(** [get_data] appends to both arrays, once, for a record whose value for
    the channel is present, and leaves both untouched for any other frame.
    It raises when some frame is not readable: a record with the channel's
    field lacks a time stamp, or its value is present but is not a number,
    or its time stamp is not a [datetime].  Otherwise it returns two
    sequences of equal length, with one entry for each record whose value is
    present. *)
Theorem get_data_aligned (frames : list frame) (data_type : DataType) :
  (forall st fr st',
     process data_type st fr = Returns st' ->
     if value_present data_type fr
     then exists seconds value,
            time st' = (time st ++ [seconds])%list /\
            data st' = (data st ++ [value])%list
     else st' = st) /\
  match get_data frames data_type with
  | Returns (times, values) =>
      length times = length values /\
      length values = length (List.filter (value_present data_type) frames) /\
      Forall (fun fr => readable data_type fr = true) frames
  | Raises _ => exists fr, In fr frames /\ readable data_type fr = false
  end.
Proof.
  split; [intros st fr st'; apply process_appends_pairs|].
  unfold get_data, bind.
  assert (Hinit : aligned (State [] [] FNone)) by (split; simpl; auto).
  pose proof (read_frames_cases data_type frames _ Hinit) as Hrun.
  destruct (read_frames data_type frames (State [] [] FNone)) as [st|e];
    [|exact Hrun].
  destruct Hrun as ((Hlen & _) & Hall & Hcount). simpl in Hcount.
  repeat split; assumption.
Qed.

(** No frame can be read for the channel [TIME] once its time stamp is
    there: the value is the time stamp itself, which cannot be both a
    number, for [float], and a [datetime], for the difference. *)
Lemma readable_TIME (fr : frame) :
  readable TIME fr = negb (value_present TIME fr).
Proof.
  destruct fr as [name fields|]; [|reflexivity].
  unfold readable, value_present.
  destruct (String.eqb name "record"); [|reflexivity]. cbn [negb orb andb].
  destruct (get_value fields (field_name TIME)) as [[| | |]|]; reflexivity.
Qed.

(** C8.  The claim fails on the code for the channel [DataType.TIME], a
    member of the enumeration that [get_data] takes: over a file with one
    record, holding a time stamp and a heart rate, [get_data] raises
    [TypeError] ([float] of a [datetime]); were the time stamp a number, it
    would raise [AttributeError] (the difference of two numbers has no
    [total_seconds]).  For this channel [get_data] never returns a sample:
    it returns two empty sequences when no record holds a time stamp, and
    raises as soon as one does. *)
Theorem get_data_time_channel_raises :
  get_data [ FitDataMessage "record"
               [("timestamp"%string, FDatetime 1000);
                ("heart_rate"%string, FNumber 120)] ] TIME
    = Raises TypeError /\
  get_data [ FitDataMessage "record"
               [("timestamp"%string, FNumber 1000);
                ("heart_rate"%string, FNumber 120)] ] TIME
    = Raises AttributeError /\
  forall frames,
    match get_data frames TIME with
    | Returns (times, values) =>
        times = [] /\ values = [] /\
        Forall (fun fr => value_present TIME fr = false) frames
    | Raises _ => exists fr, In fr frames /\ value_present TIME fr = true
    end.
Proof.
  split; [reflexivity|]. split; [reflexivity|]. intros frames.
  unfold get_data, bind.
  assert (Hinit : aligned (State [] [] FNone)) by (split; simpl; auto).
  pose proof (read_frames_cases TIME frames _ Hinit) as Hrun.
  destruct (read_frames TIME frames (State [] [] FNone)) as [st|e].
  - destruct Hrun as ((Hlen & _) & Hall & Hcount). simpl in Hcount.
    assert (Habsent : Forall (fun fr => value_present TIME fr = false) frames).
    { apply Forall_forall. intros fr Hfr. rewrite Forall_forall in Hall.
      specialize (Hall fr Hfr). rewrite readable_TIME in Hall.
      now apply negb_true_iff in Hall. }
    assert (Hnone : List.filter (value_present TIME) frames = []).
    { clear -Habsent. induction Habsent as [|fr frames Hfr _ IH]; [reflexivity|].
      simpl. now rewrite Hfr. }
    rewrite Hnone in Hcount. simpl in Hcount.
    destruct (data st); [|discriminate].
    destruct (time st); [|discriminate]. auto.
  - destruct Hrun as (fr & Hin & Hbad). exists fr. split; [exact Hin|].
    rewrite readable_TIME in Hbad. now apply negb_false_iff in Hbad.
Qed.

(** ** Further properties of data_extraction.py *)

Lemma process_sample (data_type : DataType) (st st' : state) (fr : frame) :
  process data_type st fr = Returns st' ->
  match samples data_type [fr] with
  | [] => st' = st
  | (t, x) :: _ =>
      let t0 := match time0 st with FDatetime t0 => t0 | _ => t end in
      st' = State (time st ++ [t - t0]) (data st ++ [x]) (FDatetime t0)
  end.
Proof.
  destruct fr as [name fields|]; [|now intros [= <-]].
  unfold process, samples, bind. cbn [flat_map]. rewrite has_field_get_value.
  destruct (String.eqb name "record"); cbn [negb]; [|now intros [= <-]].
  destruct (get_value fields (field_name data_type)) as [value|e];
    cbn [negb]; [|now intros [= <-]].
  destruct (get_value fields (field_name TIME)) as [timepoint|e];
    [|discriminate].
  destruct value as [|x|seconds|]; cbn [float]; try discriminate;
    [now intros [= <-]|].
  destruct timepoint as [|y|t|], (time0 st) as [|y0|t0|] eqn:Hfirst;
    cbn; try discriminate; now intros [= <-].
Qed.

Lemma samples_cons (data_type : DataType) (fr : frame) (frames : list frame) :
  samples data_type (fr :: frames) =
  (samples data_type [fr] ++ samples data_type frames)%list.
Proof. unfold samples. simpl. now rewrite app_nil_r. Qed.

Lemma samples_single (data_type : DataType) (fr : frame) :
  samples data_type [fr] = [] \/ exists t x, samples data_type [fr] = [(t, x)].
Proof.
  unfold samples. simpl. destruct fr as [name fields|]; [|now left].
  destruct (String.eqb name "record"); [|now left].
  destruct (get_value _ _) as [[| | |]|]; try now left.
  destruct (get_value _ _) as [[| | |]|]; try now left.
  right. eauto.
Qed.

Lemma read_frames_from (data_type : DataType) (frames : list frame) :
  forall st st' t0,
    time0 st = FDatetime t0 ->
    read_frames data_type frames st = Returns st' ->
    time st' = (time st ++ map (fun p => fst p - t0) (samples data_type frames))%list /\
    data st' = (data st ++ map snd (samples data_type frames))%list.
Proof.
  induction frames as [|fr frames IH]; intros st st' t0 Hfirst Hread.
  - injection Hread as <-. simpl. now rewrite !app_nil_r.
  - simpl in Hread. unfold bind in Hread.
    destruct (process data_type st fr) as [st1|] eqn:Hprocess; [|discriminate].
    apply process_sample in Hprocess. rewrite samples_cons.
    destruct (samples_single data_type fr) as [Hnone | (t & x & Hone)].
    + rewrite Hnone in *. subst st1. now apply IH.
    + rewrite Hone in *. cbv zeta in Hprocess. rewrite Hfirst in Hprocess.
      destruct (IH st1 st' t0) as [Htime Hdata];
        [now subst st1 | exact Hread |].
      rewrite Htime, Hdata. subst st1. simpl.
      now rewrite <- !app_assoc.
Qed.

Lemma get_data_samples (frames : list frame) (data_type : DataType)
    (times values : list Q) :
  get_data frames data_type = Returns (times, values) ->
  values = map snd (samples data_type frames) /\
  times = match samples data_type frames with
          | [] => []
          | (t0, _) :: _ =>
              map (fun p => fst p - t0) (samples data_type frames)
          end.
Proof.
  unfold get_data, bind.
  destruct (read_frames data_type frames (State [] [] FNone)) as [st|] eqn:Hread;
    [|discriminate].
  intros [= <- <-].
  assert (Hgen : forall frames st0 st',
            time0 st0 = FNone -> time st0 = [] -> data st0 = [] ->
            read_frames data_type frames st0 = Returns st' ->
            data st' = map snd (samples data_type frames) /\
            time st' = match samples data_type frames with
                       | [] => []
                       | (t0, _) :: _ =>
                           map (fun p => fst p - t0) (samples data_type frames)
                       end).
  { clear. induction frames as [|fr frames IH];
      intros st0 st' Hfirst Htime Hdata Hread.
    - injection Hread as <-. auto.
    - simpl in Hread. unfold bind in Hread.
      destruct (process data_type st0 fr) as [st1|] eqn:Hprocess;
        [|discriminate].
      apply process_sample in Hprocess. rewrite samples_cons.
      destruct (samples_single data_type fr) as [Hnone | (t & x & Hone)].
      + rewrite Hnone in *. subst st1. now apply (IH st0 st').
      + rewrite Hone in *. cbv zeta in Hprocess. rewrite Hfirst in Hprocess.
        destruct (read_frames_from data_type frames st1 st' t) as [Ht Hd];
          [now subst st1 | exact Hread |].
        rewrite Ht, Hd. subst st1. simpl. rewrite Htime, Hdata. auto. }
  destruct (Hgen frames (State [] [] FNone) st eq_refl eq_refl eq_refl Hread)
    as [Hd Ht].
  now rewrite Hd, Ht.
Qed.

(** What [get_data] returns, when it returns: the values are the numbers of
    the records that carry one for the channel, in file order, and each time
    is the record's time stamp minus the time stamp of the first of these
    records (not of the first record of the file). *)
Theorem get_data_returns_samples (frames : list frame) (data_type : DataType)
    (times values : list Q) :
  get_data frames data_type = Returns (times, values) ->
  values = map snd (samples data_type frames) /\
  times = match samples data_type frames with
          | [] => []
          | (t0, _) :: _ =>
              map (fun p => fst p - t0) (samples data_type frames)
          end.
Proof. apply get_data_samples. Qed.

Lemma get_data_returns_samples_witness :
  [120; 125] = map snd (samples HEART_RATE recording) /\
  [1000 - 1000; 1003 - 1000] =
    match samples HEART_RATE recording with
    | [] => []
    | (t0, _) :: _ => map (fun p => fst p - t0) (samples HEART_RATE recording)
    end.
Proof.
  apply (get_data_returns_samples recording HEART_RATE).
  reflexivity.
Defined.

Lemma ascending_shift (c : Q) (l : list Q) :
  ascending l = true -> ascending (map (fun t => t - c) l) = true.
Proof.
  induction l as [|x l IH]; [reflexivity|].
  destruct l as [|y l]; [reflexivity|].
  intros H. change (Qle_bool x y && ascending (y :: l) = true) in H.
  apply andb_true_iff in H as [Hxy Hrest].
  change (Qle_bool (x - c) (y - c)
          && ascending (map (fun t => t - c) (y :: l)) = true).
  apply andb_true_iff. split; [|now apply IH].
  apply Qle_bool_iff in Hxy. apply Qle_bool_iff. lra.
Qed.

(** When the records that carry the channel come in the order of their time
    stamps, the times that [get_data] returns are sorted ascending, start at
    0 and are never negative, and there is one for each value: the series is
    one [moving_window] can take. *)
Theorem get_data_times_are_sorted (frames : list frame) (data_type : DataType)
    (times values : list Q) :
  get_data frames data_type = Returns (times, values) ->
  ascending (map fst (samples data_type frames)) = true ->
  ascending times = true /\
  Forall (fun t => 0 <= t) times /\
  match times with
  | [] => values = []
  | first :: _ => first == 0
  end /\
  length times = length values.
Proof.
  intros Hget Hasc.
  apply get_data_samples in Hget as [-> ->].
  destruct (samples data_type frames) as [|[t0 x0] rest] eqn:Hsamples;
    [repeat split; constructor|].
  rewrite <- (map_map fst (fun t => t - t0)).
  split; [now apply ascending_shift|]. split; [|split].
  - apply Forall_forall. intros t Ht.
    apply in_map_iff in Ht as (t' & <- & Ht').
    assert (t0 <= t'); [|lra].
    simpl in Ht'. destruct Ht' as [<- | Ht']; [apply Qle_refl|].
    apply In_nth_error in Ht' as [j Hj].
    eapply ascending_head; eauto.
  - simpl. ring.
  - now rewrite !length_map.
Qed.

Lemma get_data_times_are_sorted_witness :
  ascending [1000 - 1000; 1003 - 1000] = true /\
  Forall (fun t => 0 <= t) [1000 - 1000; 1003 - 1000] /\
  1000 - 1000 == 0 /\
  length [1000 - 1000; 1003 - 1000] = length [120; 125].
Proof.
  apply (get_data_times_are_sorted recording HEART_RATE
           [1000 - 1000; 1003 - 1000] [120; 125]); reflexivity.
Defined.

(** *** Angles *)

Lemma ANGLE_CONVERSION_value : ANGLE_CONVERSION == 4294967296 / 360.
Proof. reflexivity. Qed.

Lemma angular_coordinate_to_degrees_value (x : Q) :
  angular_coordinate_to_degrees x == x * (360 # 4294967296).
Proof.
  unfold angular_coordinate_to_degrees. rewrite ANGLE_CONVERSION_value.
  unfold Qdiv. apply Qmult_comp; reflexivity.
Qed.

Lemma sint32_degrees (x : Q) :
  sint32 x ->
  -180 <= angular_coordinate_to_degrees x /\
  angular_coordinate_to_degrees x < 180.
Proof.
  intros (n & -> & Hlo & Hhi).
  rewrite angular_coordinate_to_degrees_value.
  rewrite Zle_Qle in Hlo. rewrite Zlt_Qlt in Hhi.
  change (inject_Z (- 2 ^ 31)) with (-2147483648) in Hlo.
  change (inject_Z (2 ^ 31)) with 2147483648 in Hhi.
  split; lra.
Qed.

(** The conversion to degrees is undone by multiplying with
    [ANGLE_CONVERSION], keeps the order of coordinates, and takes the signed
    32-bit integers into the degrees from -180 (for [-2**31]) up to, but not
    including, 180. *)
Theorem angular_coordinate_to_degrees_range :
  (forall x, angular_coordinate_to_degrees x * ANGLE_CONVERSION == x) /\
  (forall x y, x < y ->
     angular_coordinate_to_degrees x < angular_coordinate_to_degrees y) /\
  (forall x, sint32 x ->
     -180 <= angular_coordinate_to_degrees x /\
     angular_coordinate_to_degrees x < 180) /\
  angular_coordinate_to_degrees (inject_Z (- 2 ^ 31)) == -180.
Proof.
  split; [|split; [|split]].
  - intros x. rewrite angular_coordinate_to_degrees_value,
      ANGLE_CONVERSION_value. field.
  - intros x y Hxy. rewrite !angular_coordinate_to_degrees_value. lra.
  - apply sint32_degrees.
  - reflexivity.
Qed.

(** [get_latitude] and [get_longitude] return the times of [get_data]
    unchanged and one angle for each of them; when the coordinates in the
    file are signed 32-bit integers, every angle lies in [[-180, 180)].
    [get_cadence] returns, with the same times, twice each recorded
    value. *)
Theorem converted_getters (frames : list frame) :
  (forall times angles,
     get_latitude frames = Returns (times, angles) \/
     get_longitude frames = Returns (times, angles) ->
     length times = length angles /\
     exists data_type raw,
       (data_type = LATITUDE \/ data_type = LONGITUDE) /\
       get_data frames data_type = Returns (times, raw) /\
       angles = map angular_coordinate_to_degrees raw /\
       (Forall sint32 raw ->
        Forall (fun angle => -180 <= angle /\ angle < 180) angles)) /\
  (forall times cadence,
     get_cadence frames = Returns (times, cadence) ->
     length times = length cadence /\
     exists raw,
       get_data frames CADENCE = Returns (times, raw) /\
       cadence = map (Qmult 2) raw).
Proof.
  assert (Hlen : forall data_type times raw,
            get_data frames data_type = Returns (times, raw) ->
            length times = length raw).
  { intros data_type times raw Hget.
    apply get_data_samples in Hget as [-> ->].
    destruct (samples data_type frames) as [|[t0 x0] rest];
      [reflexivity | now rewrite !length_map]. }
  assert (Hangle : forall data_type times angles,
            (do extracted <- get_data frames data_type;
             Returns (fst extracted,
                      map angular_coordinate_to_degrees (snd extracted)))
            = Returns (times, angles) ->
            length times = length angles /\
            exists raw,
              get_data frames data_type = Returns (times, raw) /\
              angles = map angular_coordinate_to_degrees raw /\
              (Forall sint32 raw ->
               Forall (fun angle => -180 <= angle /\ angle < 180) angles)).
  { intros data_type times angles. unfold bind.
    destruct (get_data frames data_type) as [[t raw]|] eqn:Hget;
      [|discriminate].
    intros [= <- <-]. simpl. rewrite length_map.
    split; [now apply (Hlen data_type)|].
    exists raw. repeat split.
    intros Hraw. apply Forall_forall. intros angle Hin.
    apply in_map_iff in Hin as (x & <- & Hx).
    rewrite Forall_forall in Hraw.
    now apply sint32_degrees, Hraw. }
  split.
  - intros times angles [Hlat | Hlong].
    + destruct (Hangle LATITUDE times angles Hlat) as [Hl (raw & H)].
      split; [exact Hl|]. exists LATITUDE, raw. auto.
    + destruct (Hangle LONGITUDE times angles Hlong) as [Hl (raw & H)].
      split; [exact Hl|]. exists LONGITUDE, raw. auto.
  - intros times cadence. unfold get_cadence, bind.
    destruct (get_data frames CADENCE) as [[t raw]|] eqn:Hget; [|discriminate].
    intros [= <- <-]. simpl. rewrite length_map.
    split; [now apply (Hlen CADENCE)|]. eauto.
Qed.
